(** * world-engine / cardinal: the system scheduler and the transaction boundary

    A shallow embedding of [cardinal/system.go] (the [systemManager]:
    registration of systems, the per-tick loop [runSystems], and the two
    observers [GetRegisteredSystems] and [GetCurrentSystem]), followed by
    models of the transaction queue and of the transaction-type registry
    whose Go sources are not part of the tree (only their tests are).

    Conventions.
    - A Go [error] is [option error]; [None] is [nil].
    - The receiver [m *systemManager] is threaded explicitly: a method
      returns the manager it leaves behind.
    - [engine.Context] is an interface declared outside the tree; the
      scheduler uses [CurrentTick], [Logger] and [SetLogger] of it, and a
      system reaches the store through it.  The store is a parameter
      ([World]) of the development.
    - Wall-clock readings ([time.Now]) are not modelled; the statsd
      emissions they feed are kept as effects, in order.
    - A system is a total function of the context it is given: a system
      that panics or never returns is outside this model. *)

From Stdlib Require Import List ListDec String Ascii NArith Bool Arith Lia.
From Stdlib Require Import DecimalString.
Import ListNotations.

Local Open Scope string_scope.
Local Open Scope list_scope.

(* ===================================================================== *)
(** ** Errors ([github.com/rotisserie/eris]) *)
(* ===================================================================== *)

(** An eris error is a root message, possibly under a stack of wrap
    messages.  [Errorf] is [eris.Errorf] / [eris.New] after formatting,
    [Wrapf cause msg] is [eris.Wrapf(cause, ...)] after formatting. *)
Inductive error : Type :=
| Errorf (msg : string)
| Wrapf (cause : error) (msg : string).

(** The messages of the chain, outermost first. *)
Fixpoint messages (e : error) : list string :=
  match e with
  | Errorf msg => [msg]
  | Wrapf cause msg => msg :: messages cause
  end.

(** [strings.Contains s sub]. *)
Definition contains (s sub : string) : bool :=
  match String.index 0 sub s with
  | Some _ => true
  | None => false
  end.

(** Some message of the chain contains [sub]. *)
Definition mentions (e : error) (sub : string) : bool :=
  existsb (fun msg => contains msg sub) (messages e).

(** [%d] of an unsigned number. *)
Definition decimal (n : N) : string :=
  NilZero.string_of_uint (N.to_uint n).

(** [%q] of a string that needs no escaping (the names formatted below
    are Go function names: printable, without quote or backslash). *)
Definition dquote : string := String (ascii_of_nat 34) EmptyString.
Definition quote (s : string) : string := dquote ++ s ++ dquote.

(* ===================================================================== *)
(** ** [path/filepath.Base] (Unix) *)
(* ===================================================================== *)

Definition isPathSeparator (c : ascii) : bool := Ascii.eqb c "/"%char.

Fixpoint dropWhile {A} (p : A -> bool) (l : list A) : list A :=
  match l with
  | [] => []
  | x :: r => if p x then dropWhile p r else l
  end.

Fixpoint takeWhile {A} (p : A -> bool) (l : list A) : list A :=
  match l with
  | [] => []
  | x :: r => if p x then x :: takeWhile p r else []
  end.

(** [Base] returns the last element of [path]; trailing separators are
    removed first; the empty path gives ".", a path of separators only
    gives "/". *)
Definition Base (path : string) : string :=
  if String.eqb path "" then "."
  else
    (* strip trailing slashes; the list is kept reversed *)
    let stripped := dropWhile isPathSeparator (rev (list_ascii_of_string path)) in
    (* the last element: everything after the last separator *)
    let last := rev (takeWhile (fun c => negb (isPathSeparator c)) stripped) in
    match last with
    | [] => "/"
    | _ => string_of_list_ascii last
    end.

(* ===================================================================== *)
(** ** The system manager ([cardinal/system.go]) *)
(* ===================================================================== *)

Section SystemManager.

(** The store that a system reads and mutates through its context. *)
Context {World : Type}.

(** zerolog context fields, in the order they were added. *)
Definition logger : Type := list (string * string).

(** What the scheduler and a system see of [engine.Context]. *)
Record Context : Type := mkContext {
  CurrentTick : N;          (* uint64 *)
  Logger : logger;
  world : World
}.

Definition SetLogger (wCtx : Context) (l : logger) : Context :=
  {| CurrentTick := CurrentTick wCtx; Logger := l; world := world wCtx |}.

Definition setWorld (wCtx : Context) (w : World) : Context :=
  {| CurrentTick := CurrentTick wCtx; Logger := Logger wCtx; world := w |}.

(** [type System func(ctx engine.Context) error].  A Go function value
    has a code identity, from which the manager derives the system's
    name; [funcName] is
    [runtime.FuncForPC(reflect.ValueOf(f).Pointer()).Name()].
    Calling the function may mutate the store (whatever it returns)
    and yields an error or nil. *)
Record System : Type := mkSystem {
  funcName : string;
  call : Context -> World * option error
}.

(** [systemType]: an internal entry used to track registered systems. *)
Record systemType : Type := mkSystemType {
  Name : string;
  Fn : System
}.

Record systemManager : Type := mkSystemManager {
  registeredSystems : list systemType;
  registeredInitSystems : list systemType;
  currentSystem : string
}.

Definition noActiveSystemName : string := "".

Definition newSystemManager : systemManager :=
  {| registeredSystems := [];
     registeredInitSystems := [];
     currentSystem := noActiveSystemName |}.

(** *** Registration *)

(** [slices.ContainsFunc]. *)
Definition ContainsFunc {A} (s : list A) (f : A -> bool) : bool := existsb f s.

(** The name derived from the function by reflection. *)
Definition systemNameOf (systemFunc : System) : string :=
  Base (funcName systemFunc).

(** The entry built for a function:
    [systemType{Name: systemName, Fn: systemFunc}]. *)
Definition entryOf (systemFunc : System) : systemType :=
  {| Name := systemNameOf systemFunc; Fn := systemFunc |}.

(** The body of the [for _, systemFunc := range systemFuncs] loop of
    [registerSystems]; [systemToRegister] is the accumulator.  An
    early [return err] is [inr err]. *)
Fixpoint collectSystems (m : systemManager) (systemFuncs : list System)
         (systemToRegister : list systemType) : list systemType + error :=
  match systemFuncs with
  | [] => inl systemToRegister
  | systemFunc :: rest =>
      let systemName := systemNameOf systemFunc in
      if ContainsFunc systemToRegister (fun s => String.eqb (Name s) systemName)
      then inr (Errorf ("duplicate system " ++ quote systemName ++ " in slice"))
      else if ContainsFunc (registeredSystems m ++ registeredInitSystems m)
                           (fun s => String.eqb (Name s) systemName)
      then inr (Errorf ("System " ++ quote systemName ++ " is already registered"))
      else collectSystems m rest
             (systemToRegister ++ [ {| Name := systemName; Fn := systemFunc |} ])
  end.

Definition registerSystems (m : systemManager) (isInit : bool)
           (systemFuncs : list System) : systemManager * option error :=
  match collectSystems m systemFuncs [] with
  | inr err => (m, Some err)
  | inl systemToRegister =>
      if isInit then
        ({| registeredSystems := registeredSystems m;
            registeredInitSystems := registeredInitSystems m ++ systemToRegister;
            currentSystem := currentSystem m |}, None)
      else
        ({| registeredSystems := registeredSystems m ++ systemToRegister;
            registeredInitSystems := registeredInitSystems m;
            currentSystem := currentSystem m |}, None)
  end.

(** *** Observers *)

Definition GetRegisteredSystems (m : systemManager) : list string :=
  map Name (registeredInitSystems m ++ registeredSystems m).

Definition GetCurrentSystem (m : systemManager) : string := currentSystem m.

(** *** Running the systems of one tick *)

(** The effects of [runSystems] that the outside can see: a call of a
    user system, and a statsd emission. *)
Inductive effect : Type :=
| Invoke (name : string)          (* sys.Fn(wCtx) *)
| EmitTickStat (name : string).   (* statsd.EmitTickStat(_, name) *)

(** An effect together with what [GetCurrentSystem] answers while it
    takes place. *)
Record observation : Type := mkObservation {
  eff : effect;
  current : string
}.

Definition observe (m : systemManager) (e : effect) : observation :=
  {| eff := e; current := GetCurrentSystem m |}.

Definition setCurrentSystem (m : systemManager) (name : string) : systemManager :=
  {| registeredSystems := registeredSystems m;
     registeredInitSystems := registeredInitSystems m;
     currentSystem := name |}.

(** What a run leaves behind: the manager, the context (store and
    logger), the effects in order, and the returned error. *)
Record outcome : Type := mkOutcome {
  mgr : systemManager;
  ctx : Context;
  log : list observation;
  err : option error
}.

(** The [for _, sys := range systemsToRun] loop and what follows it. *)
Fixpoint runLoop (systemsToRun : list systemType) (m : systemManager)
         (wCtx : Context) : outcome :=
  match systemsToRun with
  | [] =>
      (* Indicate that no system is currently running *)
      let m' := setCurrentSystem m noActiveSystemName in
      {| mgr := m'; ctx := wCtx;
         log := [observe m' (EmitTickStat "all_systems")];
         err := None |}
  | sys :: rest =>
      let m1 := setCurrentSystem m (Name sys) in
      (* Inject the system name into the logger *)
      let wCtx1 := SetLogger wCtx (Logger wCtx ++ [("system", Name sys)]) in
      (* Executes the system function that the user registered *)
      let (w, result) := call (Fn sys) wCtx1 in
      let wCtx2 := setWorld wCtx1 w in
      match result with
      | Some e =>
          {| mgr := setCurrentSystem m1 "";
             ctx := wCtx2;
             log := [observe m1 (Invoke (Name sys))];
             err := Some (Wrapf e ("System " ++ Name sys ++ " generated an error")) |}
      | None =>
          let o := runLoop rest m1 wCtx2 in
          {| mgr := mgr o; ctx := ctx o;
             log := observe m1 (Invoke (Name sys))
                    :: observe m1 (EmitTickStat (Name sys))
                    :: log o;
             err := err o |}
      end
  end.

(** The systems of this tick: init systems are part of tick 0 only. *)
Definition systemsOfTick (m : systemManager) (tick : N) : list systemType :=
  if N.eqb tick 0 then registeredInitSystems m ++ registeredSystems m
  else registeredSystems m.

Definition runSystems (m : systemManager) (wCtx : Context) : outcome :=
  let systemsToRun := systemsOfTick m (CurrentTick wCtx) in
  runLoop systemsToRun m wCtx.

(** The names of the systems called, in call order. *)
Fixpoint invoked (l : list observation) : list string :=
  match l with
  | [] => []
  | o :: r =>
      match eff o with
      | Invoke name => name :: invoked r
      | EmitTickStat _ => invoked r
      end
  end.

(** The context a system is called with: the current one, with the
    system's name added to the logger. *)
Definition ctxFor (wCtx : Context) (sys : systemType) : Context :=
  SetLogger wCtx (Logger wCtx ++ [("system", Name sys)]).

(** The message [runSystems] wraps a system's error with. *)
Definition wrapMessage (sys : systemType) : string :=
  "System " ++ Name sys ++ " generated an error".

(** What the log holds for a system that was called and returned nil,
    given what [GetCurrentSystem] said during the call and during the
    statsd emission that follows it. *)
Definition completed (name : string) : list observation :=
  [ {| eff := Invoke name; current := name |};
    {| eff := EmitTickStat name; current := name |} ].

(** The record is clear whenever no system is being called. *)
Definition clearedOutsideSystems (l : list observation) : Prop :=
  forall o, In o l -> (forall name, eff o <> Invoke name) ->
            current o = noActiveSystemName.

(** The record names the system being called. *)
Definition namedInsideSystems (l : list observation) : Prop :=
  forall o name, In o l -> eff o = Invoke name -> current o = name.


(** An error whose messages carry both a system's name and a tick
    number in decimal. *)
Definition carriesNameAndTick (e : error) (name : string) (tick : N) : Prop :=
  mentions e name = true /\ mentions e (decimal tick) = true.

End SystemManager.

(* ===================================================================== *)
(** ** Histories of calls on one manager *)
(* ===================================================================== *)

Section Histories.

Context {World : Type}.

(** One call [registerSystems(isInit, systemFuncs...)]. *)
Definition registration : Type := bool * list (@System World).

(** The calls issued in order on [m]; [None] as soon as one of them
    returns an error. *)
Fixpoint registerAll (m : @systemManager World) (calls : list registration)
  : option systemManager :=
  match calls with
  | [] => Some m
  | (isInit, systemFuncs) :: rest =>
      match registerSystems m isInit systemFuncs with
      | (m', None) => registerAll m' rest
      | (_, Some _) => None
      end
  end.

(** The functions passed by the init calls ([init = true]) or by the
    regular calls ([init = false]), in call order. *)
Definition functionsOf (init : bool) (calls : list registration) : list System :=
  flat_map (fun c => if Bool.eqb (fst c) init then snd c else []) calls.

(** The managers a program can hold: a new one, and what registration
    calls and runs leave behind. *)
Inductive reachable : @systemManager World -> Prop :=
| reachable_new : reachable newSystemManager
| reachable_register m isInit systemFuncs :
    reachable m -> reachable (fst (registerSystems m isInit systemFuncs))
| reachable_run m wCtx :
    reachable m -> reachable (mgr (runSystems m wCtx)).

End Histories.

(* ===================================================================== *)
(** ** A small game, used to run the definitions *)
(* ===================================================================== *)

Module Demo.

(** The store is one counter. *)
Definition bump (k : nat) : @Context nat -> nat * option error :=
  fun wCtx => (world wCtx + k, None).

Definition spawn : @System nat :=
  {| funcName := "example.com/game.Spawn"; call := bump 1 |}.
Definition seed : @System nat :=
  {| funcName := "example.com/game.Seed"; call := bump 2 |}.
Definition move : @System nat :=
  {| funcName := "example.com/game.Move"; call := bump 10 |}.
Definition score : @System nat :=
  {| funcName := "example.com/game.Score"; call := bump 20 |}.

(** A function of another package with the same base name as [move]. *)
Definition otherMove : @System nat :=
  {| funcName := "example.com/mods/game.Move"; call := bump 1000 |}.

(** A system that mutates the store and then fails. *)
Definition broken : @System nat :=
  {| funcName := "example.com/game.Broken";
     call := fun wCtx => (world wCtx + 100, Some (Errorf "boom")) |}.

Definition tickCtx (tick : N) (w : nat) : @Context nat :=
  {| CurrentTick := tick; Logger := []; world := w |}.

(** init: Spawn, Seed; regular: Move, Score. *)
Definition game : @systemManager nat :=
  fst (registerSystems (fst (registerSystems newSystemManager true [spawn; seed]))
                       false [move; score]).

(** init: Spawn, Seed; regular: Move, Broken, Score. *)
Definition brokenGame : @systemManager nat :=
  fst (registerSystems (fst (registerSystems newSystemManager true [spawn; seed]))
                       false [move; broken; score]).


End Demo.

(* ===================================================================== *)
(** ** The transaction queue *)
(* ===================================================================== *)

Module TransactionQueue.

Section Queue.

(** The payload of a transaction is opaque to the queue. *)
Context {Payload : Type}.

Definition TypeID : Type := N.

(** Modelled from the spec: the signature carried with a
    transaction, [{submitterTag, nonce}]; the Go type
    ([sign.SignedPayload]) is declared outside the tree. *)
Record Signature : Type := mkSignature {
  submitterTag : string;
  nonce : N
}.

(** Modelled from the spec: a queued transaction is the tuple
    [{TypeID, payload, signature}]; the Go declaration is missing. *)
Record Transaction : Type := mkTransaction {
  typeID : TypeID;
  payload : Payload;
  signature : Signature
}.

(** Modelled from the spec: the queue of section 4.2, whose Go
    source (the world's transaction queue) is missing.  Two buffers:
    [active] accumulates submissions, [processing] is the frozen
    batch of the tick being executed. *)
Record Queue : Type := mkQueue {
  active : list Transaction;
  processing : list Transaction
}.

Definition NewQueue : Queue := {| active := []; processing := [] |}.

(** Modelled from the spec: [AddTransaction] appends to the active
    buffer (and touches nothing else); the Go method is missing. *)
Definition AddTransaction (q : Queue) (id : TypeID) (p : Payload)
           (sig : Signature) : Queue :=
  {| active := active q ++ [ {| typeID := id; payload := p; signature := sig |} ];
     processing := processing q |}.

(** Modelled from the spec: [SwapAndGetProcessing], the swap at the
    start of a tick: active becomes processing, a new empty active
    buffer is installed, the new processing batch is returned; the
    Go code is missing. *)
Definition SwapAndGetProcessing (q : Queue) : Queue * list Transaction :=
  ({| active := []; processing := active q |}, active q).

(** Modelled from the spec: [TypedView] filters a batch to the
    entries of one TypeID, preserving submission order; the Go
    accessor (the [In] method of a transaction type) is missing. *)
Definition TypedView (batch : list Transaction) (id : TypeID) : list Transaction :=
  filter (fun tx => N.eqb (typeID tx) id) batch.

(** A sequence of submissions, issued in order. *)
Definition submitAll (q : Queue) (txs : list Transaction) : Queue :=
  fold_left (fun q tx => AddTransaction q (typeID tx) (payload tx) (signature tx))
            txs q.

(** What happens to a queue over time: a submission, or the swap that
    starts a tick. *)
Inductive event : Type :=
| Submit (tx : Transaction)
| Swap.

(** The events applied in order; the batches handed out by the swaps are
    collected, first tick first. *)
Fixpoint replay (q : Queue) (h : list event) : Queue * list (list Transaction) :=
  match h with
  | [] => (q, [])
  | Submit tx :: h' =>
      replay (AddTransaction q (typeID tx) (payload tx) (signature tx)) h'
  | Swap :: h' =>
      let (q', batch) := SwapAndGetProcessing q in
      let (q'', batches) := replay q' h' in
      (q'', batch :: batches)
  end.

(** The history of complete ticks: for each of them the submissions that
    preceded its swap, then the swap. *)
Definition ticks (segments : list (list Transaction)) : list event :=
  flat_map (fun seg => map Submit seg ++ [Swap]) segments.

End Queue.

End TransactionQueue.

(* ===================================================================== *)
(** ** Transaction types: registration and the external encoding *)
(* ===================================================================== *)

Module TransactionTypes.

(** Modelled from the spec: the errors of section 7 that registration
    and decoding of transaction types can return. *)
Inductive Error : Type :=
| DuplicateRegistration
| SchemaNotConfigured
| DecodeFailure.

Section Types.

(** [Shape] stands for the payload type a descriptor is declared
    with, [Schema] for an external binary-encoding descriptor, and
    [decode] for decoding per schema, which belongs to the external
    codec ([None] on malformed input). *)
Context {Shape Schema Payload : Type}.
Variable decode : Schema -> list Byte.byte -> option Payload.

(** Modelled from the spec: a transaction type is a named
    descriptor, optionally configured with an external schema; the
    Go type ([TransactionType]) is missing from the tree. *)
Record TransactionType : Type := mkTransactionType {
  txName : string;
  shape : Shape;
  schema : option Schema
}.

(** Modelled from the spec: a fresh descriptor has no schema. *)
Definition NewTransactionType (name : string) (sh : Shape) : TransactionType :=
  {| txName := name; shape := sh; schema := None |}.

(** Modelled from the spec: [SetSchema] configures the descriptor's
    schema ([SetEVMType] in the tests). *)
Definition SetSchema (t : TransactionType) (s : Schema) : TransactionType :=
  {| txName := txName t; shape := shape t; schema := Some s |}.

(** Modelled from the spec: [DecodeExternalBytes] ([DecodeEVMBytes]
    in the tests) fails with SchemaNotConfigured before [SetSchema],
    otherwise decodes per schema or fails with DecodeFailure; the
    Go method is missing from the tree. *)
Definition DecodeExternalBytes (t : TransactionType) (bz : list Byte.byte)
  : Payload + Error :=
  match schema t with
  | None => inr SchemaNotConfigured
  | Some s =>
      match decode s bz with
      | Some p => inl p
      | None => inr DecodeFailure
      end
  end.

(** Modelled from the spec: the registered transaction types of a
    world that has not started ticking, each with the TypeID it was
    assigned, in registration order, and the next TypeID to assign. *)
Record Registry : Type := mkRegistry {
  types : list (N * TransactionType);
  nextID : N
}.

Definition NewRegistry : Registry := {| types := []; nextID := 1 |}.

Definition nameTaken (r : Registry) (name : string) : bool :=
  existsb (fun e => String.eqb (txName (snd e)) name) (types r).

(** One type after the other: a name already registered (before the
    call or earlier in it) is a duplicate; otherwise the type gets
    the next TypeID.  An identical descriptor passed twice carries
    the same name twice. *)
Fixpoint assignAll (r : Registry) (txs : list TransactionType) : Registry + Error :=
  match txs with
  | [] => inl r
  | t :: rest =>
      if nameTaken r (txName t) then inr DuplicateRegistration
      else assignAll {| types := types r ++ [(nextID r, t)];
                        nextID := N.succ (nextID r) |} rest
  end.

(** Modelled from the spec: [RegisterTransactionType(s)] assigns
    ascending TypeIDs in call order, fails with
    DuplicateRegistration on a name registered before or twice in
    the call, and is all-or-nothing; the Go method
    ([RegisterTransactions]) is missing from the tree.  The gate that
    closes registration once ticking began is not part of this
    model. *)
Definition RegisterTransactionTypes (r : Registry) (txs : list TransactionType)
  : Registry * option Error :=
  match assignAll r txs with
  | inl r' => (r', None)
  | inr e => (r, Some e)
  end.

Definition registeredNames (r : Registry) : list string :=
  map (fun e => txName (snd e)) (types r).

End Types.

End TransactionTypes.

Module DemoTx.

(** Transactions of two types; the payload is an amount. *)
Definition alice : TransactionQueue.Signature :=
  TransactionQueue.mkSignature "alice" 1.
Definition modifyScore (amount : nat) : @TransactionQueue.Transaction nat :=
  TransactionQueue.mkTransaction 1%N amount alice.
Definition rename (k : nat) : @TransactionQueue.Transaction nat :=
  TransactionQueue.mkTransaction 2%N k alice.

(** A moment of a tick: three submissions before its swap, one after. *)
Definition midTick : @TransactionQueue.Queue nat :=
  TransactionQueue.submitAll
    (fst (TransactionQueue.SwapAndGetProcessing
            (TransactionQueue.submitAll TransactionQueue.NewQueue
               [modifyScore 105; rename 7; modifyScore 110])))
    [modifyScore 150].

(** Two transaction types named alike, of different payload shapes
    (a shape is the list of its field names here). *)
Definition alphaTx : @TransactionTypes.TransactionType (list string) unit :=
  TransactionTypes.NewTransactionType "name_match" ["X"; "Y"; "Z"].
Definition betaTx : @TransactionTypes.TransactionType (list string) unit :=
  TransactionTypes.NewTransactionType "name_match" ["Alpha"; "Beta"].

(** A codec that hands the bytes back, for a payload of raw bytes. *)
Definition rawBytes (_ : unit) (bz : list Byte.byte) : option (list Byte.byte) :=
  Some bz.
Definition fooTx : @TransactionTypes.TransactionType unit unit :=
  TransactionTypes.NewTransactionType "foo" tt.

End DemoTx.

(* ===================================================================== *)
(** ** The EVM message server ([package evm]) *)
(* ===================================================================== *)

Module EVM.

Section Server.

(** [Payload] is what a transaction decodes to ([any] in Go), [Request]
    and [Reply] what a read decodes and answers, [ServerOption] a
    [grpc.ServerOption].  The world the server holds is used through its
    transaction queue. *)
Context {Payload Request Reply ServerOption : Type}.

Definition World : Type := @TransactionQueue.Queue Payload.

(** What the server uses of [transaction.ITransaction]. *)
Record ITransaction : Type := mkITransaction {
  ID : N;
  DecodeEVMBytes : list Byte.byte -> Payload + error
}.

(** What the server uses of [ecs.IRead].  The handler is given the
    world, which it may change. *)
Record IRead : Type := mkIRead {
  Name : string;
  DecodeEVMRequest : list Byte.byte -> Request + error;
  HandleRead : World -> Request -> World * (Reply + error);
  EncodeEVMReply : Reply -> list Byte.byte + error
}.

(** [txByID] maps transaction type ID's to transaction types,
    [readByName] read resource names to reads.  A Go map is used here
    through assignment and lookup only.  [transaction.TypeID] is
    declared outside the tree: as in the queue an ID is a natural
    number, and the conversion [transaction.TypeID(msg.MessageId)]
    keeps the value. *)
Definition txByID : Type := N -> option ITransaction.
Definition readByName : Type := string -> option IRead.

(** [it[tx.ID()] = tx] and [ir[r.Name()] = r]. *)
Definition setTx (it : txByID) (tx : ITransaction) : txByID :=
  fun id => if N.eqb id (ID tx) then Some tx else it id.
Definition setRead (ir : readByName) (r : IRead) : readByName :=
  fun name => if String.eqb name (Name r) then Some r else ir name.

Record msgServerImpl : Type := mkMsgServerImpl {
  txMap : txByID;
  readMap : readByName;
  world : World;
  serverOpts : list ServerOption;
  nextNonce : N                (* *atomic.Uint64 *)
}.

(** An [Option] is a function that is applied to the server under
    construction. *)
Definition Option : Type := msgServerImpl -> msgServerImpl.

(** [w.ListTransactions()] and [w.ListReads()] belong to the world,
    whose source is outside the tree. *)
Variable ListTransactions : World -> list ITransaction + error.
Variable ListReads : World -> list IRead.

Definition NewServer (w : World) (opts : list Option) : msgServerImpl + error :=
  (* setup txs *)
  match ListTransactions w with
  | inr err => inr err
  | inl txs =>
      let it := fold_left setTx txs (fun _ => None) in
      let reads := ListReads w in
      let ir := fold_left setRead reads (fun _ => None) in
      let s := {| txMap := it; readMap := ir; world := w;
                  serverOpts := []; nextNonce := 0 |} in
      inl (fold_left (fun s opt => opt s) opts s)
  end.

(** [atomic.Uint64.Add(1)]: the new value, modulo 2^64. *)
Definition uint64Modulus : N := 2 ^ 64.
Definition add1 (n : N) : N := (n + 1) mod uint64Modulus.

(** [nextSig] produces a signature that has a static PersonaTag and a
    unique nonce. *)
Definition nextSig (s : msgServerImpl) : msgServerImpl * TransactionQueue.Signature :=
  let n := add1 (nextNonce s) in
  ({| txMap := txMap s; readMap := readMap s; world := world s;
      serverOpts := serverOpts s; nextNonce := n |},
   {| TransactionQueue.submitterTag := "internal-persona-tag-for-evm-server";
      TransactionQueue.nonce := n |}).

(** The fields of [routerv1.SendMessageRequest] that are read. *)
Record SendMessageRequest : Type := mkSendMessageRequest {
  MessageId : N;               (* uint64 *)
  Message : list Byte.byte
}.

Definition SendMessage (s : msgServerImpl) (msg : SendMessageRequest)
  : msgServerImpl * (unit + error) :=
  (* first we check if we can extract the transaction associated with the id *)
  match txMap s (MessageId msg) with
  | None =>
      (s, inr (Errorf ("no transaction with ID " ++ decimal (MessageId msg)
                       ++ " is registerd in this world")))
  | Some itx =>
      (* decode the evm bytes into the transaction *)
      match DecodeEVMBytes itx (Message msg) with
      | inr err => (s, inr err)
      | inl tx =>
          let (s1, sig) := nextSig s in
          (* add transaction to the world queue *)
          ({| txMap := txMap s1; readMap := readMap s1;
              world := TransactionQueue.AddTransaction (world s1) (ID itx) tx sig;
              serverOpts := serverOpts s1; nextNonce := nextNonce s1 |},
           inl tt)
      end
  end.

(** The fields of [routerv1.QueryShardRequest] that are read. *)
Record QueryShardRequest : Type := mkQueryShardRequest {
  Resource : string;
  Request_ : list Byte.byte
}.

Definition setServerWorld (s : msgServerImpl) (w : World) : msgServerImpl :=
  {| txMap := txMap s; readMap := readMap s; world := w;
     serverOpts := serverOpts s; nextNonce := nextNonce s |}.

Definition QueryShard (s : msgServerImpl) (req : QueryShardRequest)
  : msgServerImpl * (list Byte.byte + error) :=
  match readMap s (Resource req) with
  | None => (s, inr (Errorf ("no read with name " ++ Resource req ++ " found")))
  | Some read =>
      match DecodeEVMRequest read (Request_ req) with
      | inr err => (s, inr err)
      | inl ecsRequest =>
          let (w, handled) := HandleRead read (world s) ecsRequest in
          match handled with
          | inr err => (setServerWorld s w, inr err)
          | inl reply =>
              match EncodeEVMReply read reply with
              | inr err => (setServerWorld s w, inr err)
              | inl bz => (setServerWorld s w, inl bz)
              end
          end
      end
  end.

(** Messages handled one after the other. *)
Definition sendAll (s : msgServerImpl) (msgs : list SendMessageRequest) : msgServerImpl :=
  fold_left (fun s msg => fst (SendMessage s msg)) msgs s.

(** Whether a message is answered without an error, and the messages of
    a sequence that are. *)
Definition accepts (s : msgServerImpl) (msg : SendMessageRequest) : bool :=
  match snd (SendMessage s msg) with
  | inl _ => true
  | inr _ => false
  end.
Definition accepted (s : msgServerImpl) (msgs : list SendMessageRequest)
  : list SendMessageRequest :=
  filter (accepts s) msgs.

(** Every entry of the map sits under its own ID. *)
Definition keyedByID (it : txByID) : Prop :=
  forall id itx, it id = Some itx -> ID itx = id.

(** The nonces of a list of queued transactions. *)
Definition nonces (txs : list (@TransactionQueue.Transaction Payload)) : list N :=
  map (fun tx => TransactionQueue.nonce (TransactionQueue.signature tx)) txs.

End Server.

End EVM.

Module DemoEVM.

(** Two transaction types whose payload is the raw bytes; the second one
    rejects the empty message. *)
Definition raw : @EVM.ITransaction (list Byte.byte) :=
  {| EVM.ID := 1; EVM.DecodeEVMBytes := fun bz => inl bz |}.
Definition strict : @EVM.ITransaction (list Byte.byte) :=
  {| EVM.ID := 2;
     EVM.DecodeEVMBytes := fun bz =>
       match bz with
       | [] => inr (Errorf "empty message")
       | _ => inl bz
       end |}.

(** A read that counts the pending transactions. *)
Definition pending : @EVM.IRead (list Byte.byte) unit nat :=
  {| EVM.Name := "pending";
     EVM.DecodeEVMRequest := fun bz =>
       match bz with
       | [] => inl tt
       | _ => inr (Errorf "unexpected request")
       end;
     EVM.HandleRead := fun w _ => (w, inl (List.length (TransactionQueue.active w)));
     EVM.EncodeEVMReply := fun n => inl (repeat Byte.x01 n) |}.

Definition listTransactions (_ : @EVM.World (list Byte.byte))
  : list (@EVM.ITransaction (list Byte.byte)) + error :=
  inl [raw; strict].
Definition listReads (_ : @EVM.World (list Byte.byte))
  : list (@EVM.IRead (list Byte.byte) unit nat) :=
  [pending].

(** An option that only adds a gRPC server option. *)
Definition withOption (o : nat)
  : @EVM.Option (list Byte.byte) unit nat nat :=
  fun s => {| EVM.txMap := EVM.txMap s; EVM.readMap := EVM.readMap s;
              EVM.world := EVM.world s;
              EVM.serverOpts := EVM.serverOpts s ++ [o];
              EVM.nextNonce := EVM.nextNonce s |}.

Definition server : @EVM.msgServerImpl (list Byte.byte) unit nat nat :=
  match EVM.NewServer listTransactions listReads TransactionQueue.NewQueue
                      [withOption 7] with
  | inl s => s
  | inr _ => {| EVM.txMap := fun _ => None; EVM.readMap := fun _ => None;
                EVM.world := TransactionQueue.NewQueue;
                EVM.serverOpts := []; EVM.nextNonce := 0 |}
  end.

(** The same server with its counter two steps from the end of uint64. *)
Definition nearWrap : @EVM.msgServerImpl (list Byte.byte) unit nat nat :=
  {| EVM.txMap := EVM.txMap server; EVM.readMap := EVM.readMap server;
     EVM.world := EVM.world server; EVM.serverOpts := EVM.serverOpts server;
     EVM.nextNonce := EVM.uint64Modulus - 2 |}.

End DemoEVM.

(* ===================================================================== *)
(** ** Facts about the library models *)
(* ===================================================================== *)

Example Base_pkg_func :
  Base "pkg.world.dev/world-engine/game.MoveSystem" = "game.MoveSystem".
Proof. reflexivity. Qed.

Example Base_edge_cases :
  Base "" = "." /\ Base "///" = "/" /\ Base "a/b/" = "b" /\ Base "plain" = "plain".
Proof. repeat split; reflexivity. Qed.

(** Two functions of different packages can share a derived name. *)
Example Base_not_injective :
  Base "example.com/a/game.Move" = Base "example.com/b/game.Move".
Proof. reflexivity. Qed.

(* ===================================================================== *)
(** ** Registration *)
(* ===================================================================== *)

Section RegistrationFacts.

Context {World : Type}.
Implicit Types (m : @systemManager World) (s : @systemType World)
         (f : @System World).

Lemma ContainsFunc_Name (l : list (@systemType World)) (n : string) :
  ContainsFunc l (fun s => String.eqb (Name s) n) = true <-> In n (map Name l).
Proof.
  unfold ContainsFunc. rewrite existsb_exists, in_map_iff.
  split; intros [s [H1 H2]]; exists s.
  - apply String.eqb_eq in H2. auto.
  - rewrite String.eqb_eq. auto.
Qed.

Lemma ContainsFunc_Name_false (l : list (@systemType World)) (n : string) :
  ContainsFunc l (fun s => String.eqb (Name s) n) = false <-> ~ In n (map Name l).
Proof.
  rewrite <- ContainsFunc_Name.
  destruct (ContainsFunc l _); split; intros; congruence.
Qed.

Lemma registered_either_order m (n : string) :
  In n (map Name (registeredSystems m ++ registeredInitSystems m))
  <-> In n (GetRegisteredSystems m).
Proof.
  unfold GetRegisteredSystems. rewrite !map_app, !in_app_iff. tauto.
Qed.

(** The loop succeeds exactly on a batch of fresh, pairwise distinct
    names, and then returns the accumulator extended in order. *)
Lemma collectSystems_ok m (fs : list System) :
  forall acc,
    NoDup (map systemNameOf fs) ->
    (forall n, In n (map systemNameOf fs) -> ~ In n (map Name acc)) ->
    (forall n, In n (map systemNameOf fs) -> ~ In n (GetRegisteredSystems m)) ->
    collectSystems m fs acc = inl (acc ++ map entryOf fs).
Proof.
  induction fs as [|f fs IH]; intros acc Hnd Hacc Hreg; simpl.
  - now rewrite app_nil_r.
  - inversion Hnd as [|? ? Hnotin Hnd']; subst.
    assert (H1 : ContainsFunc acc
              (fun s => String.eqb (Name s) (systemNameOf f)) = false).
    { apply ContainsFunc_Name_false. apply Hacc. now left. }
    assert (H2 : ContainsFunc (registeredSystems m ++ registeredInitSystems m)
              (fun s => String.eqb (Name s) (systemNameOf f)) = false).
    { apply ContainsFunc_Name_false. rewrite registered_either_order.
      apply Hreg. now left. }
    rewrite H1, H2.
    rewrite IH; auto.
    + now rewrite <- app_assoc.
    + intros n Hn. rewrite map_app, in_app_iff. simpl.
      intros [Hin | [Heq | []]].
      * apply (Hacc n); [now right | exact Hin].
      * subst n. contradiction.
    + intros n Hn. apply Hreg. now right.
Qed.

Lemma collectSystems_fail m (fs : list System) :
  forall acc,
    (~ NoDup (map systemNameOf fs)
     \/ (exists n, In n (map systemNameOf fs) /\ In n (map Name acc))
     \/ (exists n, In n (map systemNameOf fs) /\ In n (GetRegisteredSystems m))) ->
    exists e, collectSystems m fs acc = inr e.
Proof.
  induction fs as [|f fs IH]; intros acc H; simpl.
  - exfalso. destruct H as [H | [[n [[] _]] | [n [[] _]]]].
    apply H. constructor.
  - destruct (ContainsFunc acc _) eqn:H1; [eauto|].
    destruct (ContainsFunc (registeredSystems m ++ registeredInitSystems m) _)
      eqn:H2; [eauto|].
    apply ContainsFunc_Name_false in H1, H2.
    rewrite registered_either_order in H2.
    apply IH.
    destruct H as [Hdup | [[n [[Heq | Hin] Hacc]] | [n [[Heq | Hin] Hreg]]]].
    + destruct (in_dec string_dec (systemNameOf f) (map systemNameOf fs))
        as [Hin | Hnotin].
      * right; left. exists (systemNameOf f). split; [exact Hin|].
        rewrite map_app, in_app_iff. right. now left.
      * left. intros Hnd. apply Hdup. now constructor.
    + subst n. contradiction.
    + right; left. exists n. split; [exact Hin|].
      rewrite map_app, in_app_iff. now left.
    + subst n. contradiction.
    + right; right. eauto.
Qed.

Lemma registerSystems_rejects m (isInit : bool) (systemFuncs : list System) :
  (~ NoDup (map systemNameOf systemFuncs)
   \/ exists n, In n (map systemNameOf systemFuncs)
                /\ In n (GetRegisteredSystems m)) ->
  exists e, registerSystems m isInit systemFuncs = (m, Some e).
Proof.
  intros H. unfold registerSystems.
  destruct (collectSystems_fail m systemFuncs []) as [e He].
  { destruct H as [H | H]; [now left | now (right; right)]. }
  rewrite He. eauto.
Qed.

Lemma registerSystems_accepts m (isInit : bool) (systemFuncs : list System) :
  NoDup (map systemNameOf systemFuncs) ->
  (forall n, In n (map systemNameOf systemFuncs) ->
             ~ In n (GetRegisteredSystems m)) ->
  registerSystems m isInit systemFuncs =
    (if isInit then
       {| registeredSystems := registeredSystems m;
          registeredInitSystems :=
            registeredInitSystems m ++ map entryOf systemFuncs;
          currentSystem := currentSystem m |}
     else
       {| registeredSystems := registeredSystems m ++ map entryOf systemFuncs;
          registeredInitSystems := registeredInitSystems m;
          currentSystem := currentSystem m |},
     None).
Proof.
  intros Hnd Hfresh. unfold registerSystems.
  rewrite (collectSystems_ok m systemFuncs [] Hnd); [ | | exact Hfresh].
  - now destruct isInit.
  - intros n _ [].
Qed.

(** A call either returns an error and changes nothing, or returns
    nil, extends one list by the batch and leaves the rest alone. *)
Lemma registerSystems_cases m (isInit : bool) (systemFuncs : list System) :
  (exists e, registerSystems m isInit systemFuncs = (m, Some e))
  \/ (NoDup (map systemNameOf systemFuncs)
      /\ (forall n, In n (map systemNameOf systemFuncs) ->
                    ~ In n (GetRegisteredSystems m))
      /\ exists m',
          registerSystems m isInit systemFuncs = (m', None)
          /\ currentSystem m' = currentSystem m
          /\ registeredInitSystems m' =
               registeredInitSystems m
                 ++ (if isInit then map entryOf systemFuncs else [])
          /\ registeredSystems m' =
               registeredSystems m
                 ++ (if isInit then [] else map entryOf systemFuncs)).
Proof.
  destruct (ListDec.NoDup_dec string_dec (map systemNameOf systemFuncs))
    as [Hnd | Hdup].
  2:{ left. apply registerSystems_rejects. now left. }
  destruct (Exists_dec (fun n => In n (GetRegisteredSystems m))
              (map systemNameOf systemFuncs)) as [Hex | Hno].
  { intros n. apply in_dec, string_dec. }
  { left. apply registerSystems_rejects. right.
    apply Exists_exists in Hex. exact Hex. }
  right.
  assert (Hfresh : forall n, In n (map systemNameOf systemFuncs) ->
                             ~ In n (GetRegisteredSystems m)).
  { intros n Hn Hreg. apply Hno, Exists_exists. eauto. }
  split; [exact Hnd|]. split; [exact Hfresh|].
  rewrite (registerSystems_accepts m isInit systemFuncs Hnd Hfresh).
  destruct isInit; eexists; (split; [reflexivity|]);
    simpl; rewrite ?app_nil_r; auto.
Qed.

(** C4: [registerSystems] is all or nothing.  If a derived name of
    the batch occurs twice in the batch, or is the name of a system
    registered before (init or regular), the call returns an error and
    leaves the manager as it was; otherwise it returns nil and appends
    the entries of the batch, in the order given, to the init list
    ([isInit]) or to the regular list. *)
Theorem registerSystems_all_or_nothing m (isInit : bool) (systemFuncs : list System) :
  let names := map systemNameOf systemFuncs in
  ((~ NoDup names \/ exists n, In n names /\ In n (GetRegisteredSystems m)) ->
   exists e, registerSystems m isInit systemFuncs = (m, Some e))
  /\
  ((NoDup names /\ forall n, In n names -> ~ In n (GetRegisteredSystems m)) ->
   registerSystems m isInit systemFuncs =
     (if isInit then
        {| registeredSystems := registeredSystems m;
           registeredInitSystems :=
             registeredInitSystems m ++ map entryOf systemFuncs;
           currentSystem := currentSystem m |}
      else
        {| registeredSystems := registeredSystems m ++ map entryOf systemFuncs;
           registeredInitSystems := registeredInitSystems m;
           currentSystem := currentSystem m |},
      None)).
Proof.
  intros names. split.
  - apply registerSystems_rejects.
  - intros [Hnd Hfresh]. now apply registerSystems_accepts.
Qed.

End RegistrationFacts.

Lemma registerSystems_all_or_nothing_witness :
  (exists e, registerSystems Demo.game false [Demo.score; Demo.otherMove]
             = (Demo.game, Some e))
  /\ (exists e, registerSystems Demo.game true [Demo.broken; Demo.broken]
                = (Demo.game, Some e))
  /\ registerSystems Demo.game false [Demo.broken]
     = ({| registeredSystems :=
             registeredSystems Demo.game ++ [entryOf Demo.broken];
           registeredInitSystems := registeredInitSystems Demo.game;
           currentSystem := currentSystem Demo.game |}, None).
Proof.
  split; [|split].
  - apply (proj1 (registerSystems_all_or_nothing
                    Demo.game false [Demo.score; Demo.otherMove])).
    right. exists "game.Move". split; vm_compute; tauto.
  - apply (proj1 (registerSystems_all_or_nothing
                    Demo.game true [Demo.broken; Demo.broken])).
    left. intros H. inversion H as [|? ? Hnotin _]. apply Hnotin. now left.
  - apply (proj2 (registerSystems_all_or_nothing
                    Demo.game false [Demo.broken])).
    split.
    + repeat constructor. intros [].
    + intros n [Hn | []]. subst n. vm_compute.
      intros [H | [H | [H | [H | []]]]]; discriminate H.
Defined.

(* ===================================================================== *)
(** ** Sequences of registration calls *)
(* ===================================================================== *)

Section HistoryFacts.

Context {World : Type}.
Implicit Types (m : @systemManager World).

Lemma registerAll_lists (calls : list (@registration World)) :
  forall m m',
    registerAll m calls = Some m' ->
    registeredInitSystems m'
    = registeredInitSystems m ++ map entryOf (functionsOf true calls)
    /\ registeredSystems m'
       = registeredSystems m ++ map entryOf (functionsOf false calls)
    /\ currentSystem m' = currentSystem m.
Proof.
  induction calls as [| [isInit fs] rest IH]; intros m m' H; simpl in H.
  - inversion H; subst. simpl. now rewrite !app_nil_r.
  - destruct (registerSystems_cases m isInit fs)
      as [[e He] | (_ & _ & m1 & Hm1 & Hcur & Hinit & Hreg)].
    + rewrite He in H. discriminate.
    + rewrite Hm1 in H. apply IH in H. destruct H as (H1 & H2 & H3).
      rewrite H1, H2, H3, Hinit, Hreg, Hcur.
      unfold functionsOf. simpl.
      rewrite !map_app, <- !app_assoc.
      destruct isInit; simpl; auto.
Qed.

Lemma map_Name_entryOf (fs : list (@System World)) :
  map Name (map entryOf fs) = map systemNameOf fs.
Proof. rewrite map_map. reflexivity. Qed.

(** C10: after any sequence of registration calls that all returned
    nil on a new manager, [GetRegisteredSystems] lists the names of
    the functions of the init calls, in call order, followed by the
    names of the functions of the regular calls, in call order,
    whatever the interleaving of the two kinds of calls was. *)
Theorem GetRegisteredSystems_init_then_regular
        (calls : list (@registration World)) m :
  registerAll newSystemManager calls = Some m ->
  GetRegisteredSystems m
  = map systemNameOf (functionsOf true calls)
    ++ map systemNameOf (functionsOf false calls).
Proof.
  intros H. apply registerAll_lists in H. destruct H as (H1 & H2 & _).
  unfold GetRegisteredSystems. rewrite H1, H2. simpl.
  now rewrite map_app, !map_Name_entryOf.
Qed.

End HistoryFacts.

Lemma GetRegisteredSystems_init_then_regular_witness :
  GetRegisteredSystems
    {| registeredSystems := [entryOf Demo.move; entryOf Demo.score];
       registeredInitSystems := [entryOf Demo.spawn; entryOf Demo.seed];
       currentSystem := "" |}
  = ["game.Spawn"; "game.Seed"] ++ ["game.Move"; "game.Score"].
Proof.
  apply (GetRegisteredSystems_init_then_regular
           [(false, [Demo.move]); (true, [Demo.spawn]);
            (false, [Demo.score]); (true, [Demo.seed])]).
  reflexivity.
Defined.

(* ===================================================================== *)
(** ** Running the systems of a tick *)
(* ===================================================================== *)

Section RunFacts.

Context {World : Type}.
Implicit Types (m : @systemManager World) (wCtx : @Context World)
         (sys : @systemType World) (l pre post : list (@systemType World)).

(** One unfolding of the loop. *)
Lemma runLoop_cons sys l m wCtx :
  runLoop (sys :: l) m wCtx =
    let m1 := setCurrentSystem m (Name sys) in
    let wCtx2 := setWorld (ctxFor wCtx sys) (fst (call (Fn sys) (ctxFor wCtx sys))) in
    match snd (call (Fn sys) (ctxFor wCtx sys)) with
    | Some e =>
        {| mgr := setCurrentSystem m1 "";
           ctx := wCtx2;
           log := [observe m1 (Invoke (Name sys))];
           err := Some (Wrapf e (wrapMessage sys)) |}
    | None =>
        let o := runLoop l m1 wCtx2 in
        {| mgr := mgr o; ctx := ctx o;
           log := observe m1 (Invoke (Name sys))
                  :: observe m1 (EmitTickStat (Name sys)) :: log o;
           err := err o |}
    end.
Proof.
  simpl. unfold ctxFor. destruct (call (Fn sys) _) as [w [e|]]; reflexivity.
Qed.

(** A case analysis on what the first system returns. *)
Ltac first_system sys wCtx :=
  rewrite runLoop_cons; cbv zeta;
  destruct (snd (call (Fn sys) (ctxFor wCtx sys))) eqn:?; cbn [mgr ctx log err].

(** The loop never touches the registered lists, and leaves no system
    recorded as running. *)
Lemma runLoop_mgr l :
  forall m wCtx,
    registeredSystems (mgr (runLoop l m wCtx)) = registeredSystems m
    /\ registeredInitSystems (mgr (runLoop l m wCtx)) = registeredInitSystems m
    /\ currentSystem (mgr (runLoop l m wCtx)) = noActiveSystemName.
Proof.
  induction l as [|sys l IH]; intros m wCtx.
  - simpl. auto.
  - first_system sys wCtx.
    + simpl. auto.
    + destruct (IH (setCurrentSystem m (Name sys))
                   (setWorld (ctxFor wCtx sys)
                             (fst (call (Fn sys) (ctxFor wCtx sys)))))
        as (H1 & H2 & H3).
      rewrite H1, H2, H3. simpl. auto.
Qed.

(** The tick number is not changed by a run. *)
Lemma runLoop_tick l :
  forall m wCtx, CurrentTick (ctx (runLoop l m wCtx)) = CurrentTick wCtx.
Proof.
  induction l as [|sys l IH]; intros m wCtx.
  - reflexivity.
  - first_system sys wCtx; [reflexivity|]. now rewrite IH.
Qed.



(** The first system that returns an error ends the run. *)
Lemma runLoop_fails_at pre :
  forall m wCtx sys post e0,
    err (runLoop pre m wCtx) = None ->
    snd (call (Fn sys) (ctxFor (ctx (runLoop pre m wCtx)) sys)) = Some e0 ->
    err (runLoop (pre ++ sys :: post) m wCtx) = Some (Wrapf e0 (wrapMessage sys))
    /\ invoked (log (runLoop (pre ++ sys :: post) m wCtx))
       = map Name pre ++ [Name sys]
    /\ world (ctx (runLoop (pre ++ sys :: post) m wCtx))
       = fst (call (Fn sys) (ctxFor (ctx (runLoop pre m wCtx)) sys)).
Proof.
  induction pre as [|s0 pre IH]; intros m wCtx sys post e0.
  - simpl app. intros _ Hcall. cbn [runLoop ctx] in Hcall.
    rewrite runLoop_cons; cbv zeta. rewrite Hcall. simpl. auto.
  - simpl app. rewrite !(runLoop_cons s0); cbv zeta.
    destruct (snd (call (Fn s0) (ctxFor wCtx s0))) eqn:E; cbn [mgr ctx log err].
    + discriminate.
    + intros Hpre Hcall.
      destruct (IH _ _ sys post e0 Hpre Hcall) as (H1 & H2 & H3).
      rewrite H1, H3. simpl. rewrite H2. auto.
Qed.

(** An error comes from exactly such a system. *)
Lemma runLoop_error_inv l :
  forall m wCtx e,
    err (runLoop l m wCtx) = Some e ->
    exists pre sys post e0,
      l = pre ++ sys :: post
      /\ err (runLoop pre m wCtx) = None
      /\ snd (call (Fn sys) (ctxFor (ctx (runLoop pre m wCtx)) sys)) = Some e0
      /\ e = Wrapf e0 (wrapMessage sys).
Proof.
  induction l as [|s0 l IH]; intros m wCtx e.
  - discriminate.
  - rewrite runLoop_cons; cbv zeta.
    destruct (snd (call (Fn s0) (ctxFor wCtx s0))) as [e1|] eqn:E;
      cbn [mgr ctx log err]; intros H.
    + exists [], s0, l, e1. inversion H; subst. simpl. auto.
    + apply IH in H. destruct H as (pre & sys & post & e0 & -> & Hpre & Hcall & ->).
      exists (s0 :: pre), sys, post, e0.
      rewrite !runLoop_cons; cbv zeta. rewrite E. cbn [mgr ctx log err].
      auto.
Qed.

(** The whole log: a call and an emission per system that returned
    nil, both under its name, then either the call of the failing
    system or the final emission under no name. *)
Lemma runLoop_log l :
  forall m wCtx,
    exists done,
      log (runLoop l m wCtx)
      = flat_map completed (map Name done)
          ++ match err (runLoop l m wCtx) with
             | None => [ {| eff := EmitTickStat "all_systems";
                            current := noActiveSystemName |} ]
             | Some _ =>
                 match nth_error l (List.length done) with
                 | Some sys => [ {| eff := Invoke (Name sys);
                                    current := Name sys |} ]
                 | None => []
                 end
             end
      /\ (exists rest, l = done ++ rest)
      /\ (err (runLoop l m wCtx) = None -> done = l)
      /\ (err (runLoop l m wCtx) <> None -> List.length done < List.length l).
Proof.
  induction l as [|s0 l IH]; intros m wCtx.
  - exists []. simpl. repeat split; auto.
    + now exists [].
    + intros H; now elim H.
  - rewrite runLoop_cons; cbv zeta.
    destruct (snd (call (Fn s0) (ctxFor wCtx s0))) as [e1|] eqn:E;
      cbn [mgr ctx log err].
    + exists []. simpl. repeat split; auto.
      * now exists (s0 :: l).
      * discriminate.
      * intros _. lia.
    + destruct (IH (setCurrentSystem m (Name s0))
                   (setWorld (ctxFor wCtx s0)
                             (fst (call (Fn s0) (ctxFor wCtx s0)))))
        as (done & Hlog & [rest Hrest] & Hall & Hsome).
      exists (s0 :: done). rewrite Hlog. simpl. repeat split; auto.
      * exists rest. now rewrite Hrest at 1.
      * intros H. now rewrite Hall.
      * intros H. apply Hsome in H. lia.
Qed.

End RunFacts.

(** Two parts of a duplicate-free list share no element. *)
Lemma NoDup_app_disjoint {A : Type} (l1 l2 : list A) :
  NoDup (l1 ++ l2) -> forall a, In a l1 -> ~ In a l2.
Proof.
  induction l1 as [|x l1 IH]; simpl; intros Hnd a Hin Hin2.
  - exact Hin.
  - inversion Hnd as [|? ? Hx Hnd']; subst.
    destruct Hin as [-> | Hin].
    + apply Hx. apply in_or_app. now right.
    + exact (IH Hnd' a Hin Hin2).
Qed.

Section SchedulerTheorems.

Context {World : Type}.
Implicit Types (m : @systemManager World) (wCtx : @Context World)
         (sys : @systemType World) (l pre post : list (@systemType World)).

(** C2, as the code has it: a system that returns an error ends the
    run: the systems before it were called, it was called, none after
    it is; the error returned is the system's error wrapped in the
    message "System <name> generated an error", which carries the
    system's name and nothing of the tick.  Conversely an error
    returned by the run always arises this way. *)
Theorem runSystems_aborts_on_error m wCtx :
  (forall pre sys post e0,
      systemsOfTick m (CurrentTick wCtx) = pre ++ sys :: post ->
      err (runLoop pre m wCtx) = None ->
      snd (call (Fn sys) (ctxFor (ctx (runLoop pre m wCtx)) sys)) = Some e0 ->
      err (runSystems m wCtx)
      = Some (Wrapf e0 ("System " ++ Name sys ++ " generated an error"))
      /\ invoked (log (runSystems m wCtx)) = map Name pre ++ [Name sys])
  /\
  (forall e,
      err (runSystems m wCtx) = Some e ->
      exists pre sys post e0,
        systemsOfTick m (CurrentTick wCtx) = pre ++ sys :: post
        /\ err (runLoop pre m wCtx) = None
        /\ snd (call (Fn sys) (ctxFor (ctx (runLoop pre m wCtx)) sys)) = Some e0
        /\ e = Wrapf e0 ("System " ++ Name sys ++ " generated an error")
        /\ invoked (log (runSystems m wCtx)) = map Name pre ++ [Name sys]).
Proof.
  unfold runSystems. split.
  - intros pre sys post e0 Hsplit Hpre Hcall. rewrite Hsplit.
    destruct (runLoop_fails_at pre m wCtx sys post e0 Hpre Hcall) as (H1 & H2 & _).
    split; assumption.
  - intros e He.
    destruct (runLoop_error_inv _ _ _ _ He)
      as (pre & sys & post & e0 & Hsplit & Hpre & Hcall & ->).
    exists pre, sys, post, e0. repeat split; auto.
    rewrite Hsplit.
    now destruct (runLoop_fails_at pre m wCtx sys post e0 Hpre Hcall) as (_ & H2 & _).
Qed.

(** Managers built by the API have pairwise distinct names over both
    lists, and record no running system between calls. *)
Lemma reachable_inv m :
  reachable m ->
  NoDup (GetRegisteredSystems m) /\ currentSystem m = noActiveSystemName.
Proof.
  induction 1 as [| m isInit fs Hm [IHnd IHcur] | m wCtx Hm [IHnd IHcur]].
  - split; [constructor | reflexivity].
  - destruct (registerSystems_cases m isInit fs)
      as [[e He] | (Hnd & Hfresh & m1 & Hm1 & Hcur & Hinit & Hreg)].
    + rewrite He. simpl. auto.
    + rewrite Hm1. simpl. split; [|congruence].
      unfold GetRegisteredSystems in *. rewrite Hinit, Hreg.
      rewrite !map_app.
      assert (Hadd : forall A B C : list string,
                 NoDup (A ++ B) -> NoDup C ->
                 (forall n, In n C -> ~ In n (A ++ B)) ->
                 NoDup (A ++ C ++ B)).
      { intros A B C HAB HC Hdis.
        apply NoDup_app_remove_l in HAB as HB.
        apply NoDup_app_remove_r in HAB as HA.
        apply NoDup_app; auto.
        - apply NoDup_app; auto.
          intros a Ha Hb. apply (Hdis a Ha). apply in_or_app. now right.
        - intros a Ha Hin. apply in_app_or in Hin. destruct Hin as [Hin | Hin].
          + apply (Hdis a Hin). apply in_or_app. now left.
          + revert a Ha Hin. now apply NoDup_app_disjoint. }
      rewrite map_app in IHnd.
      destruct isInit; simpl; rewrite ?app_nil_r, ?map_Name_entryOf.
      * rewrite <- app_assoc. apply Hadd; auto.
        intros n Hn. rewrite <- map_app. now apply Hfresh.
      * rewrite app_assoc. apply NoDup_app; auto.
        intros n Hn Hfs. apply (Hfresh n Hfs). now rewrite map_app.
  - unfold runSystems, GetRegisteredSystems in *.
    destruct (runLoop_mgr (systemsOfTick m (CurrentTick wCtx)) m wCtx)
      as (H1 & H2 & H3).
    rewrite H1, H2, H3. auto.
Qed.


(** What the code does with the record: while a system is called the record
    holds its name; after a system has returned nil the record keeps
    that name (through the statsd emission) until the next system's
    name replaces it; the record is cleared when the run ends, by an
    error or after the last system, so that after the run
    [GetCurrentSystem] returns the empty string. *)
Theorem currentSystem_during_run m wCtx :
  let o := runSystems m wCtx in
  GetCurrentSystem (mgr o) = ""
  /\ namedInsideSystems (log o)
  /\ exists done,
      (exists rest, systemsOfTick m (CurrentTick wCtx) = done ++ rest)
      /\ log o
         = flat_map completed (map Name done)
             ++ match err o with
                | None => [ {| eff := EmitTickStat "all_systems"; current := "" |} ]
                | Some _ =>
                    match nth_error (systemsOfTick m (CurrentTick wCtx))
                                    (List.length done) with
                    | Some sys => [ {| eff := Invoke (Name sys);
                                       current := Name sys |} ]
                    | None => []
                    end
                end.
Proof.
  intros o. unfold o, runSystems.
  set (l := systemsOfTick m (CurrentTick wCtx)).
  destruct (runLoop_mgr l m wCtx) as (_ & _ & Hcur).
  destruct (runLoop_log l m wCtx) as (done & Hlog & Hrest & _ & _).
  split; [exact Hcur|]. split.
  - rewrite Hlog. intros ob name Hin Heff.
    apply in_app_or in Hin. destruct Hin as [Hin | Hin].
    + apply in_flat_map in Hin. destruct Hin as (n & _ & [<- | [<- | []]]);
        simpl in Heff |- *; congruence.
    + destruct (err (runLoop l m wCtx)).
      * destruct (nth_error l (List.length done)); [|destruct Hin].
        destruct Hin as [<- | []]. simpl in Heff |- *. congruence.
      * destruct Hin as [<- | []]. discriminate.
  - exists done. split; assumption.
Qed.

End SchedulerTheorems.

(** *** The scheduler at work on the demo game *)



Lemma runSystems_aborts_on_error_witness :
  err (runSystems Demo.brokenGame (Demo.tickCtx 7 0))
  = Some (Wrapf (Errorf "boom") "System game.Broken generated an error")
  /\ invoked (log (runSystems Demo.brokenGame (Demo.tickCtx 7 0)))
     = ["game.Move"; "game.Broken"].
Proof.
  apply (proj1 (runSystems_aborts_on_error Demo.brokenGame (Demo.tickCtx 7 0))
               [entryOf Demo.move] (entryOf Demo.broken) [entryOf Demo.score]
               (Errorf "boom"));
    reflexivity.
Defined.

(** At tick 7 the error names the failing system but no tick; the same
    error comes back at tick 8. *)
Lemma runSystems_error_carries_no_tick :
  exists e,
    err (runSystems Demo.brokenGame (Demo.tickCtx 7 0)) = Some e
    /\ ~ carriesNameAndTick e "game.Broken" 7
    /\ err (runSystems Demo.brokenGame (Demo.tickCtx 8 0)) = Some e.
Proof.
  eexists. split; [reflexivity|]. split; [|reflexivity].
  intros [_ H]. vm_compute in H. discriminate H.
Qed.



(** C7: the record is to be empty whenever no system is running, as the
    comment on [GetCurrentSystem] in the [SystemManager] interface has
    it.  The code misses this between systems: with the regular systems
    Move and Score at tick 1, Move has returned and Score has not been
    called while the tick stat of Move is emitted, and the record still
    holds the name of Move.  The error return and the end of the loop do
    clear it. *)
Lemma currentSystem_kept_between_systems :
  ~ clearedOutsideSystems (log (runSystems Demo.game (Demo.tickCtx 1 0))).
Proof.
  intros H.
  specialize (H {| eff := EmitTickStat "game.Move"; current := "game.Move" |}).
  discriminate H.
  - right. left. reflexivity.
  - intros name. discriminate.
Qed.

Example runSystems_game_tick1 :
  log (runSystems Demo.game (Demo.tickCtx 1 0))
  = [ {| eff := Invoke "game.Move"; current := "game.Move" |};
      {| eff := EmitTickStat "game.Move"; current := "game.Move" |};
      {| eff := Invoke "game.Score"; current := "game.Score" |};
      {| eff := EmitTickStat "game.Score"; current := "game.Score" |};
      {| eff := EmitTickStat "all_systems"; current := "" |} ]
  /\ world (ctx (runSystems Demo.game (Demo.tickCtx 1 0))) = 30.
Proof. split; reflexivity. Qed.

Example runSystems_brokenGame_keeps_mutations :
  world (ctx (runSystems Demo.brokenGame (Demo.tickCtx 7 0))) = 110
  /\ GetCurrentSystem (mgr (runSystems Demo.brokenGame (Demo.tickCtx 7 0))) = "".
Proof. split; reflexivity. Qed.

(* ===================================================================== *)
(** ** The transaction queue: what a tick sees *)
(* ===================================================================== *)

Section QueueFacts.

Import TransactionQueue.
Context {Payload : Type}.
Implicit Types (q : @Queue Payload) (txs : list (@Transaction Payload)).

Lemma AddTransaction_tx q (tx : @Transaction Payload) :
  AddTransaction q (typeID tx) (payload tx) (signature tx)
  = {| active := active q ++ [tx]; processing := processing q |}.
Proof. destruct tx; reflexivity. Qed.

(** Submissions extend the active buffer in order and never touch the
    processing buffer. *)
Lemma submitAll_buffers txs :
  forall q,
    active (submitAll q txs) = active q ++ txs
    /\ processing (submitAll q txs) = processing q.
Proof.
  unfold submitAll.
  induction txs as [|tx txs IH]; intros q; simpl.
  - now rewrite app_nil_r.
  - destruct (IH (AddTransaction q (typeID tx) (payload tx) (signature tx)))
      as [Ha Hp].
    rewrite Ha, Hp, AddTransaction_tx. simpl.
    now rewrite <- app_assoc.
Qed.

(** From a queue whose active buffer is empty: the submissions made
    before the next swap are the batch of that swap, and the processing
    buffer holds that batch, whatever is submitted meanwhile, until the
    swap after, whose batch is what was submitted meanwhile. *)
Lemma swap_freezes_batch q0 (before during : list (@Transaction Payload)) :
  active q0 = [] ->
  snd (SwapAndGetProcessing (submitAll q0 before)) = before
  /\ active (submitAll (fst (SwapAndGetProcessing (submitAll q0 before))) during)
     = during
  /\ processing (submitAll (fst (SwapAndGetProcessing (submitAll q0 before))) during)
     = before.
Proof.
  intros Hempty.
  destruct (submitAll_buffers before q0) as [Ha _].
  destruct (submitAll_buffers during
              (fst (SwapAndGetProcessing (submitAll q0 before)))) as [Ha' Hp'].
  rewrite Ha', Hp'. simpl. rewrite Ha, Hempty. auto.
Qed.

Lemma replay_app (h1 h2 : list (@event Payload)) :
  forall q,
    replay q (h1 ++ h2)
    = (fst (replay (fst (replay q h1)) h2),
       snd (replay q h1) ++ snd (replay (fst (replay q h1)) h2)).
Proof.
  induction h1 as [|[tx|] h1 IH]; intros q; simpl.
  - now destruct (replay q h2).
  - apply IH.
  - rewrite IH.
    destruct (replay {| active := []; processing := active q |} h1) as [q1 b1].
    reflexivity.
Qed.

Lemma replay_submits txs :
  forall q, replay q (map Submit txs) = (submitAll q txs, []).
Proof.
  unfold submitAll. induction txs as [|tx txs IH]; intros q; simpl; auto.
Qed.

(** Complete ticks, replayed from a queue with an empty active buffer,
    hand out their own submissions, tick by tick, and leave the active
    buffer empty. *)
Lemma replay_ticks (segments : list (list (@Transaction Payload))) :
  forall q,
    active q = [] ->
    snd (replay q (ticks segments)) = segments
    /\ active (fst (replay q (ticks segments))) = [].
Proof.
  induction segments as [|seg segments IH]; intros q Hempty.
  - simpl. auto.
  - unfold ticks. simpl. fold (ticks segments).
    rewrite <- app_assoc, replay_app, replay_submits. cbn [fst snd app].
    destruct (submitAll_buffers seg q) as [Ha _].
    destruct (IH {| active := []; processing := active (submitAll q seg) |} eq_refl)
      as [Hb Hq].
    simpl.
    destruct (replay {| active := []; processing := active (submitAll q seg) |}
                     (ticks segments)) as [q1 b1].
    simpl in *. rewrite Ha, Hempty, Hb. auto.
Qed.

(** C1: on a new queue, let any number of ticks pass, each with its own
    submissions ([past]); then let [before] be submitted, tick N swap
    (N is the number of past ticks), [during] be submitted while tick N
    executes, tick N+1 swap, and [later] be submitted.  The batch handed
    out to tick N is [before]; at every moment of tick N the typed view
    of the processing buffer, for every TypeID, is the entries of
    [before] with that TypeID in submission order, so nothing of
    [during] is seen in tick N; the batch of tick N+1 is [during], and
    that is what every typed view shows all through tick N+1. *)
Theorem TypedView_of_tick (past : list (list (@Transaction Payload)))
        (before during later : list (@Transaction Payload)) (id : TypeID) :
  let N := List.length past in
  let untilSwapN := ticks past ++ map Submit before ++ [Swap] in
  let inTickN := replay NewQueue (untilSwapN ++ map Submit during) in
  let inTickN1 :=
    replay NewQueue (untilSwapN ++ map Submit during ++ [Swap] ++ map Submit later) in
  nth_error (snd inTickN) N = Some before
  /\ TypedView (processing (fst inTickN)) id
     = filter (fun tx => N.eqb (typeID tx) id) before
  /\ nth_error (snd inTickN1) (S N) = Some during
  /\ TypedView (processing (fst inTickN1)) id
     = filter (fun tx => N.eqb (typeID tx) id) during.
Proof.
  intros N untilSwapN inTickN inTickN1.
  destruct (replay_ticks past NewQueue eq_refl) as [Hpast Hq].
  (* the queue and the batches right after the swap of tick N *)
  assert (HswapN : replay NewQueue untilSwapN
                   = ({| active := []; processing := before |}, past ++ [before])).
  { unfold untilSwapN. rewrite replay_app, Hpast.
    rewrite replay_app, replay_submits. cbn [fst snd app replay SwapAndGetProcessing].
    destruct (submitAll_buffers before (fst (replay NewQueue (ticks past))))
      as [Ha _].
    now rewrite Ha, Hq. }
  set (qN := {| active := []; processing := before |}) in *.
  destruct (submitAll_buffers during qN) as [HaN HpN].
  assert (HmidN : inTickN = (submitAll qN during, past ++ [before])).
  { unfold inTickN. rewrite replay_app, HswapN, replay_submits.
    cbn [fst snd]. now rewrite app_nil_r. }
  set (qN1 := {| active := []; processing := during |} : @Queue Payload).
  destruct (submitAll_buffers later qN1) as [_ HpN1].
  assert (HmidN1 : inTickN1 = (submitAll qN1 later, (past ++ [before]) ++ [during])).
  { unfold inTickN1. rewrite replay_app, HswapN. cbn [fst snd].
    rewrite replay_app, replay_submits.
    cbn [fst snd app replay SwapAndGetProcessing].
    rewrite replay_submits, HaN. reflexivity. }
  rewrite HmidN, HmidN1. cbn [fst snd]. rewrite HpN, HpN1.
  unfold TypedView. cbn [processing qN qN1].
  assert (Hlen : List.length (past ++ [before]) = S N).
  { rewrite length_app. simpl. unfold N. lia. }
  repeat split.
  - rewrite nth_error_app2 by (unfold N; lia).
    unfold N. now rewrite Nat.sub_diag.
  - rewrite nth_error_app2 by lia. now rewrite Hlen, Nat.sub_diag.
Qed.

End QueueFacts.

Example midTick_views :
  TransactionQueue.TypedView (TransactionQueue.processing DemoTx.midTick) 1%N
  = [DemoTx.modifyScore 105; DemoTx.modifyScore 110]
  /\ TransactionQueue.TypedView
       (snd (TransactionQueue.SwapAndGetProcessing DemoTx.midTick)) 1%N
     = [DemoTx.modifyScore 150].
Proof. split; reflexivity. Qed.

(** The scenario of the test: one submission before the first tick, one
    during it; both systems of the first tick count one transaction, the
    second tick counts one, the third none. *)
Example transactions_are_executed_at_next_tick :
  let q0 := TransactionQueue.submitAll TransactionQueue.NewQueue [DemoTx.modifyScore 0] in
  let q1 := fst (TransactionQueue.SwapAndGetProcessing q0) in
  let seenBySystem1 := TransactionQueue.TypedView (TransactionQueue.processing q1) 1%N in
  let q1' := TransactionQueue.submitAll q1 [DemoTx.modifyScore 0] in
  let seenBySystem2 := TransactionQueue.TypedView (TransactionQueue.processing q1') 1%N in
  let q2 := fst (TransactionQueue.SwapAndGetProcessing q1') in
  let q3 := fst (TransactionQueue.SwapAndGetProcessing q2) in
  List.length seenBySystem1 = 1
  /\ List.length seenBySystem2 = 1
  /\ List.length (TransactionQueue.TypedView (TransactionQueue.processing q2) 1%N) = 1
  /\ List.length (TransactionQueue.TypedView (TransactionQueue.processing q3) 1%N) = 0.
Proof. repeat split. Qed.

(* ===================================================================== *)
(** ** Transaction types *)
(* ===================================================================== *)

Section TypesFacts.

Import TransactionTypes.
Context {Shape Schema : Type}.
Implicit Types (r : @Registry Shape Schema)
         (t a b : @TransactionType Shape Schema)
         (txs : list (@TransactionType Shape Schema)).

Lemma nameTaken_In r (name : string) :
  nameTaken r name = true <-> In name (registeredNames r).
Proof.
  unfold nameTaken, registeredNames. rewrite existsb_exists, in_map_iff.
  split; intros [e [H1 H2]]; exists e.
  - apply String.eqb_eq in H2. auto.
  - rewrite String.eqb_eq. auto.
Qed.

(** Registration has one way to fail. *)
Lemma assignAll_error txs :
  forall r e, assignAll r txs = inr e -> e = DuplicateRegistration.
Proof.
  induction txs as [|t txs IH]; intros r e; simpl.
  - discriminate.
  - destruct (nameTaken r (txName t)); [congruence | apply IH].
Qed.

(** When it succeeds the names were fresh and pairwise distinct, and
    they are registered in order. *)
Lemma assignAll_success txs :
  forall r r',
    assignAll r txs = inl r' ->
    registeredNames r' = registeredNames r ++ map txName txs
    /\ NoDup (map txName txs)
    /\ (forall n, In n (map txName txs) -> ~ In n (registeredNames r)).
Proof.
  induction txs as [|t txs IH]; intros r r'; simpl.
  - intros H. inversion H; subst. rewrite app_nil_r.
    repeat split; [constructor | intros n []].
  - destruct (nameTaken r (txName t)) eqn:Htaken; [discriminate|].
    intros H. apply IH in H. destruct H as (Hnames & Hnd & Hfresh).
    assert (Hstep : registeredNames
                      {| types := types r ++ [(nextID r, t)];
                         nextID := N.succ (nextID r) |}
                    = registeredNames r ++ [txName t]).
    { unfold registeredNames. simpl. now rewrite map_app. }
    rewrite Hstep in Hnames, Hfresh.
    assert (Hnot : ~ In (txName t) (registeredNames r)).
    { rewrite <- nameTaken_In. congruence. }
    split; [now rewrite Hnames, <- app_assoc|]. split.
    + constructor; [|exact Hnd].
      intros Hin. apply (Hfresh _ Hin). apply in_or_app. right. now left.
    + intros n [<- | Hn]; [exact Hnot|].
      intros Hr. apply (Hfresh _ Hn). apply in_or_app. now left.
Qed.

Lemma RegisterTransactionTypes_rejects r txs :
  (~ NoDup (map txName txs)
   \/ exists n, In n (map txName txs) /\ In n (registeredNames r)) ->
  RegisterTransactionTypes r txs = (r, Some DuplicateRegistration).
Proof.
  intros H. unfold RegisterTransactionTypes.
  destruct (assignAll r txs) as [r' | e] eqn:E.
  - exfalso. apply assignAll_success in E. destruct E as (_ & Hnd & Hfresh).
    destruct H as [H | [n [Hn Hr]]]; [now apply H | now apply (Hfresh n)].
  - apply assignAll_error in E. now subst e.
Qed.

(** C6: two transaction types with the same name, whatever their
    payload shapes, cannot be registered on one registry: a call that
    holds both fails with DuplicateRegistration and registers nothing,
    and so does a call that holds one of them after a call that
    registered the other.  The identical descriptor twice, in one call
    or in two, is a case of this. *)
Theorem duplicate_transaction_names_rejected r a b :
  txName a = txName b ->
  (forall pre mid post,
      RegisterTransactionTypes r (pre ++ a :: mid ++ b :: post)
      = (r, Some DuplicateRegistration))
  /\ (forall batch1 batch2 r1,
         RegisterTransactionTypes r batch1 = (r1, None) ->
         In a batch1 -> In b batch2 ->
         RegisterTransactionTypes r1 batch2 = (r1, Some DuplicateRegistration))
  /\ RegisterTransactionTypes r [a; a] = (r, Some DuplicateRegistration)
  /\ (forall r1,
         RegisterTransactionTypes r [a] = (r1, None) ->
         RegisterTransactionTypes r1 [a] = (r1, Some DuplicateRegistration)).
Proof.
  intros Hname.
  assert (Hsame : forall pre mid post (x y : @TransactionType Shape Schema),
             txName x = txName y ->
             RegisterTransactionTypes r (pre ++ x :: mid ++ y :: post)
             = (r, Some DuplicateRegistration)).
  { intros pre mid post x y Hxy. apply RegisterTransactionTypes_rejects. left.
    rewrite map_app. simpl. intros Hnd.
    apply NoDup_remove_2 in Hnd. apply Hnd.
    apply in_or_app. right. rewrite map_app. apply in_or_app. right.
    left. now symmetry. }
  assert (Hlater : forall batch1 batch2 r1 (x y : @TransactionType Shape Schema),
             txName x = txName y ->
             RegisterTransactionTypes r batch1 = (r1, None) ->
             In x batch1 -> In y batch2 ->
             RegisterTransactionTypes r1 batch2 = (r1, Some DuplicateRegistration)).
  { intros batch1 batch2 r1 x y Hxy H1 Hx Hy.
    unfold RegisterTransactionTypes in H1.
    destruct (assignAll r batch1) as [r' | e] eqn:E; [|discriminate].
    inversion H1; subst r'. apply assignAll_success in E.
    destruct E as (Hnames & _ & _).
    apply RegisterTransactionTypes_rejects. right.
    exists (txName y). split; [now apply in_map|].
    rewrite Hnames. apply in_or_app. right. rewrite <- Hxy. now apply in_map. }
  split; [|split; [|split]].
  - intros pre mid post. now apply Hsame.
  - intros batch1 batch2 r1. now apply Hlater.
  - apply (Hsame [] [] [] a a). reflexivity.
  - intros r1 H1. apply (Hlater [a] [a] r1 a a); simpl; auto.
Qed.

(** C8: a transaction type whose schema has not been set cannot
    decode: for every byte sequence, [DecodeExternalBytes] fails with
    SchemaNotConfigured and returns no payload.  A descriptor fresh
    from [NewTransactionType] is in that state. *)
Theorem decode_before_SetSchema {Payload : Type}
        (decode : Schema -> list Byte.byte -> option Payload) t
        (bz : list Byte.byte) :
  schema t = None ->
  DecodeExternalBytes decode t bz = inr SchemaNotConfigured
  /\ (forall (name : string) (sh : Shape),
         DecodeExternalBytes decode (NewTransactionType name sh) bz
         = inr SchemaNotConfigured).
Proof.
  intros Hnone. unfold DecodeExternalBytes. rewrite Hnone.
  split; reflexivity.
Qed.

End TypesFacts.

Lemma duplicate_transaction_names_rejected_witness :
  TransactionTypes.RegisterTransactionTypes
    TransactionTypes.NewRegistry [DemoTx.alphaTx; DemoTx.betaTx]
  = (TransactionTypes.NewRegistry, Some TransactionTypes.DuplicateRegistration)
  /\ TransactionTypes.RegisterTransactionTypes
       (fst (TransactionTypes.RegisterTransactionTypes
               TransactionTypes.NewRegistry [DemoTx.alphaTx]))
       [DemoTx.betaTx]
     = (fst (TransactionTypes.RegisterTransactionTypes
               TransactionTypes.NewRegistry [DemoTx.alphaTx]),
        Some TransactionTypes.DuplicateRegistration).
Proof.
  pose proof (duplicate_transaction_names_rejected
                TransactionTypes.NewRegistry DemoTx.alphaTx DemoTx.betaTx eq_refl)
    as (Hsame & Hlater & _).
  split.
  - exact (Hsame [] [] []).
  - apply (Hlater [DemoTx.alphaTx] [DemoTx.betaTx]).
    + reflexivity.
    + left. reflexivity.
    + left. reflexivity.
Defined.

Lemma decode_before_SetSchema_witness :
  TransactionTypes.DecodeExternalBytes DemoTx.rawBytes DemoTx.fooTx []
  = inr TransactionTypes.SchemaNotConfigured.
Proof.
  apply (decode_before_SetSchema DemoTx.rawBytes DemoTx.fooTx [] eq_refl).
Defined.

(** Once the schema is set, decoding is the codec's. *)
Example decode_after_SetSchema :
  TransactionTypes.DecodeExternalBytes
    DemoTx.rawBytes (TransactionTypes.SetSchema DemoTx.fooTx tt) []
  = inl [].
Proof. reflexivity. Qed.

(** TypeIDs ascend in registration order. *)
Example register_assigns_ascending_ids :
  let alpha := @TransactionTypes.NewTransactionType unit unit "alpha_tx" tt in
  let beta := @TransactionTypes.NewTransactionType unit unit "beta_tx" tt in
  TransactionTypes.types
    (fst (TransactionTypes.RegisterTransactionTypes
            TransactionTypes.NewRegistry [alpha; beta]))
  = [(1%N, alpha); (2%N, beta)].
Proof. reflexivity. Qed.

(* ===================================================================== *)
(** ** More on the system manager *)
(* ===================================================================== *)

Section SchedulerMore.

Context {World : Type}.
Implicit Types (m : @systemManager World) (wCtx : @Context World)
         (sys : @systemType World) (l pre post : list (@systemType World))
         (f g : @System World).

(** The loop reads nothing of the record of the running system. *)
Lemma runLoop_ignores_current l m wCtx (name : string) :
  runLoop l (setCurrentSystem m name) wCtx = runLoop l m wCtx.
Proof.
  destruct l as [|sys l]; [reflexivity|].
  rewrite !runLoop_cons. reflexivity.
Qed.

(** Systems that all return nil, followed by more systems: the second
    part runs on what the first part left. *)
Lemma runLoop_app l1 :
  forall l2 m wCtx,
    err (runLoop l1 m wCtx) = None ->
    err (runLoop (l1 ++ l2) m wCtx) = err (runLoop l2 m (ctx (runLoop l1 m wCtx)))
    /\ ctx (runLoop (l1 ++ l2) m wCtx) = ctx (runLoop l2 m (ctx (runLoop l1 m wCtx)))
    /\ mgr (runLoop (l1 ++ l2) m wCtx) = mgr (runLoop l2 m (ctx (runLoop l1 m wCtx)))
    /\ invoked (log (runLoop (l1 ++ l2) m wCtx))
       = map Name l1 ++ invoked (log (runLoop l2 m (ctx (runLoop l1 m wCtx)))).
Proof.
  induction l1 as [|s0 l1 IH]; intros l2 m wCtx.
  - intros _. simpl. auto.
  - change ((s0 :: l1) ++ l2) with (s0 :: (l1 ++ l2)).
    rewrite (runLoop_cons s0 (l1 ++ l2)), (runLoop_cons s0 l1); cbv zeta.
    destruct (snd (call (Fn s0) (ctxFor wCtx s0))) eqn:E; cbn [mgr ctx log err].
    + discriminate.
    + rewrite (runLoop_ignores_current l1), (runLoop_ignores_current (l1 ++ l2)).
      intros Hok.
      destruct (IH l2 m _ Hok) as (H1 & H2 & H3 & H4).
      rewrite H1, H2, H3. simpl. rewrite H4. repeat split; reflexivity.
Qed.

(** X1: A run keeps both lists of registered systems, hence what
    [GetRegisteredSystems] returns, and the tick number of the context:
    [runSystems] neither registers nor removes a system, and it is not
    what advances the tick. *)
Theorem runSystems_keeps_registrations m wCtx :
  registeredSystems (mgr (runSystems m wCtx)) = registeredSystems m
  /\ registeredInitSystems (mgr (runSystems m wCtx)) = registeredInitSystems m
  /\ GetRegisteredSystems (mgr (runSystems m wCtx)) = GetRegisteredSystems m
  /\ CurrentTick (ctx (runSystems m wCtx)) = CurrentTick wCtx.
Proof.
  unfold runSystems, GetRegisteredSystems.
  destruct (runLoop_mgr (systemsOfTick m (CurrentTick wCtx)) m wCtx)
    as (H1 & H2 & _).
  rewrite H1, H2, runLoop_tick. auto.
Qed.


(** X3: Tick 0 is the init systems followed by an ordinary pass of the
    regular systems on what the init systems left: when every init
    system returns nil, the error, the context and the manager of the
    run are those of the regular pass, and the systems called are the
    init systems and then those of the regular pass. *)
Theorem tick0_is_init_then_regular m wCtx :
  CurrentTick wCtx = 0%N ->
  err (runLoop (registeredInitSystems m) m wCtx) = None ->
  let afterInit := ctx (runLoop (registeredInitSystems m) m wCtx) in
  let regularPass := runLoop (registeredSystems m) m afterInit in
  err (runSystems m wCtx) = err regularPass
  /\ ctx (runSystems m wCtx) = ctx regularPass
  /\ mgr (runSystems m wCtx) = mgr regularPass
  /\ invoked (log (runSystems m wCtx))
     = map Name (registeredInitSystems m) ++ invoked (log regularPass).
Proof.
  intros Htick Hinit afterInit regularPass.
  unfold runSystems, systemsOfTick. rewrite Htick. simpl N.eqb. cbv iota.
  exact (runLoop_app _ (registeredSystems m) m wCtx Hinit).
Qed.


(** X5: Whatever registration calls and runs a manager went through, the
    names of its registered systems, init and regular together, are
    pairwise distinct. *)
Theorem registered_names_stay_unique m :
  reachable m -> NoDup (GetRegisteredSystems m).
Proof. intros H. now destruct (reachable_inv m H). Qed.

(** X6: Between calls no system is recorded as running: on every manager
    left by registration calls and runs, [GetCurrentSystem] returns the
    empty string. *)
Theorem no_current_system_between_calls m :
  reachable m -> GetCurrentSystem m = "".
Proof. intros H. now destruct (reachable_inv m H). Qed.

(** A batch whose first functions are acceptable is walked up to them
    without a change of mind. *)
Lemma collectSystems_skip m (fs : list System) :
  forall rest acc,
    NoDup (map systemNameOf fs) ->
    (forall n, In n (map systemNameOf fs) -> ~ In n (map Name acc)) ->
    (forall n, In n (map systemNameOf fs) -> ~ In n (GetRegisteredSystems m)) ->
    collectSystems m (fs ++ rest) acc
    = collectSystems m rest (acc ++ map entryOf fs).
Proof.
  induction fs as [|f fs IH]; intros rest acc Hnd Hacc Hreg; simpl app.
  - now rewrite app_nil_r.
  - inversion Hnd as [|? ? Hnotin Hnd']; subst. simpl collectSystems.
    assert (H1 : ContainsFunc acc
              (fun s => String.eqb (Name s) (systemNameOf f)) = false).
    { apply ContainsFunc_Name_false. apply Hacc. now left. }
    assert (H2 : ContainsFunc (registeredSystems m ++ registeredInitSystems m)
              (fun s => String.eqb (Name s) (systemNameOf f)) = false).
    { apply ContainsFunc_Name_false. rewrite registered_either_order.
      apply Hreg. now left. }
    rewrite H1, H2, IH; auto.
    + simpl map. now rewrite <- app_assoc.
    + intros n Hn. rewrite map_app, in_app_iff. simpl.
      intros [Hin | [Heq | []]].
      * apply (Hacc n); [now right | exact Hin].
      * subst n. contradiction.
    + intros n Hn. apply Hreg. now right.
Qed.

(** X7: The error of a rejected batch is about the first function, in the
    order given, whose name is taken: "duplicate system ... in slice"
    when an earlier function of the batch has that name, "System ... is
    already registered" when a registered system has it. *)
Theorem registerSystems_reports_first_conflict m (isInit : bool)
        (accepted : list System) f (rest : list System) :
  NoDup (map systemNameOf accepted) ->
  (forall n, In n (map systemNameOf accepted) -> ~ In n (GetRegisteredSystems m)) ->
  (In (systemNameOf f) (map systemNameOf accepted) ->
   registerSystems m isInit (accepted ++ f :: rest)
   = (m, Some (Errorf ("duplicate system " ++ quote (systemNameOf f) ++ " in slice"))))
  /\ (~ In (systemNameOf f) (map systemNameOf accepted) ->
      In (systemNameOf f) (GetRegisteredSystems m) ->
      registerSystems m isInit (accepted ++ f :: rest)
      = (m, Some (Errorf ("System " ++ quote (systemNameOf f)
                          ++ " is already registered")))).
Proof.
  intros Hnd Hfresh. unfold registerSystems.
  rewrite (collectSystems_skip m accepted (f :: rest) [] Hnd (fun n _ H => H) Hfresh).
  simpl app. simpl collectSystems. split.
  - intros Hdup.
    assert (H1 : ContainsFunc (map entryOf accepted)
              (fun s => String.eqb (Name s) (systemNameOf f)) = true).
    { apply ContainsFunc_Name. now rewrite map_Name_entryOf. }
    now rewrite H1.
  - intros Hnew Hreg.
    assert (H1 : ContainsFunc (map entryOf accepted)
              (fun s => String.eqb (Name s) (systemNameOf f)) = false).
    { apply ContainsFunc_Name_false. now rewrite map_Name_entryOf. }
    assert (H2 : ContainsFunc (registeredSystems m ++ registeredInitSystems m)
              (fun s => String.eqb (Name s) (systemNameOf f)) = true).
    { apply ContainsFunc_Name. now rewrite registered_either_order. }
    now rewrite H1, H2.
Qed.

End SchedulerMore.

(** *** The name derived from a function *)




Section NameFacts.

Context {World : Type}.
Implicit Types (m : @systemManager World) (f g : @System World).


End NameFacts.


(** *** Witnesses on the demo game *)


Lemma tick0_is_init_then_regular_witness :
  invoked (log (runSystems Demo.game (Demo.tickCtx 0 0)))
  = ["game.Spawn"; "game.Seed"]
      ++ invoked (log (runLoop (registeredSystems Demo.game) Demo.game
                               (ctx (runLoop (registeredInitSystems Demo.game)
                                             Demo.game (Demo.tickCtx 0 0))))).
Proof.
  apply (tick0_is_init_then_regular Demo.game (Demo.tickCtx 0 0) eq_refl eq_refl).
Defined.


Lemma registered_names_stay_unique_witness :
  NoDup (GetRegisteredSystems
           (mgr (runSystems Demo.brokenGame (Demo.tickCtx 7 0)))).
Proof.
  apply registered_names_stay_unique.
  apply reachable_run. repeat apply reachable_register. apply reachable_new.
Defined.

Lemma no_current_system_between_calls_witness :
  GetCurrentSystem (mgr (runSystems Demo.brokenGame (Demo.tickCtx 7 0))) = "".
Proof.
  apply no_current_system_between_calls.
  apply reachable_run. repeat apply reachable_register. apply reachable_new.
Defined.

Lemma registerSystems_reports_first_conflict_witness :
  registerSystems Demo.game true [Demo.broken; Demo.broken; Demo.move]
  = (Demo.game,
     Some (Errorf ("duplicate system " ++ quote "game.Broken" ++ " in slice")))
  /\ registerSystems Demo.game true [Demo.broken; Demo.otherMove; Demo.broken]
     = (Demo.game,
        Some (Errorf ("System " ++ quote "game.Move" ++ " is already registered"))).
Proof.
  assert (Hnd : NoDup (map (@systemNameOf nat) [Demo.broken])).
  { repeat constructor. intros []. }
  assert (Hfresh : forall n, In n (map (@systemNameOf nat) [Demo.broken]) ->
                             ~ In n (GetRegisteredSystems Demo.game)).
  { intros n [Hn | []]. subst n. vm_compute.
    intros [H | [H | [H | [H | []]]]]; discriminate H. }
  split.
  - apply (proj1 (registerSystems_reports_first_conflict
                    Demo.game true [Demo.broken] Demo.broken [Demo.move]
                    Hnd Hfresh)).
    left. reflexivity.
  - apply (proj2 (registerSystems_reports_first_conflict
                    Demo.game true [Demo.broken] Demo.otherMove [Demo.broken]
                    Hnd Hfresh)).
    + vm_compute. intros [H | []]. discriminate H.
    + vm_compute. tauto.
Defined.

(* ===================================================================== *)
(** ** The EVM message server *)
(* ===================================================================== *)

Lemma find_app {A : Type} (p : A -> bool) (l1 l2 : list A) :
  find p (l1 ++ l2)
  = match find p l1 with Some x => Some x | None => find p l2 end.
Proof.
  induction l1 as [|x l1 IH]; simpl; [reflexivity|].
  destruct (p x); [reflexivity | exact IH].
Qed.

Lemma NoDup_map_In_inj {A B : Type} (f : A -> B) (l : list A) :
  NoDup (map f l) ->
  forall a b, In a l -> In b l -> f a = f b -> a = b.
Proof.
  induction l as [|x l IH]; simpl; intros Hnd a b Ha Hb Hab; [destruct Ha|].
  inversion Hnd as [|? ? Hx Hnd']; subst.
  destruct Ha as [-> | Ha], Hb as [-> | Hb]; auto.
  - exfalso. apply Hx. rewrite Hab. now apply in_map.
  - exfalso. apply Hx. rewrite <- Hab. now apply in_map.
Qed.

Lemma NoDup_map_injective {A B : Type} (f : A -> B) (l : list A) :
  (forall a b, In a l -> In b l -> f a = f b -> a = b) ->
  NoDup l -> NoDup (map f l).
Proof.
  induction l as [|x l IH]; simpl; intros Hinj Hnd; [constructor|].
  inversion Hnd as [|? ? Hx Hnd']; subst. constructor.
  - intros Hin. apply in_map_iff in Hin. destruct Hin as (y & Hy & Hyl).
    apply Hx. rewrite <- (Hinj y x); auto.
  - apply IH; auto.
Qed.

Section EVMFacts.

Import TransactionQueue.
Import EVM.
Context {Payload Request Reply ServerOption : Type}.
Variable ListTransactions :
  @World Payload -> list (@ITransaction Payload) + error.
Variable ListReads : @World Payload -> list (@IRead Payload Request Reply).
Implicit Types (s : @msgServerImpl Payload Request Reply ServerOption)
         (msg : SendMessageRequest) (req : QueryShardRequest)
         (itx : @ITransaction Payload) (txs : list (@ITransaction Payload)).

(** The map built by assigning the transactions in order holds, under
    each ID, the last transaction of that ID. *)
Lemma fold_setTx txs :
  forall (it : @txByID Payload) (id : N),
    fold_left setTx txs it id
    = match find (fun tx => N.eqb id (ID tx)) (rev txs) with
      | Some tx => Some tx
      | None => it id
      end.
Proof.
  induction txs as [|tx txs IH]; intros it id; simpl; [reflexivity|].
  rewrite IH, find_app. simpl. unfold setTx at 1.
  destruct (find _ (rev txs)); [reflexivity|].
  destruct (N.eqb id (ID tx)); reflexivity.
Qed.

Lemma fold_setRead (reads : list (@IRead Payload Request Reply)) :
  forall (ir : @readByName Payload Request Reply) (name : string),
    fold_left setRead reads ir name
    = match find (fun r => String.eqb name (Name r)) (rev reads) with
      | Some r => Some r
      | None => ir name
      end.
Proof.
  induction reads as [|r reads IH]; intros ir name; simpl; [reflexivity|].
  rewrite IH, find_app. simpl. unfold setRead at 1.
  destruct (find _ (rev reads)); [reflexivity|].
  destruct (String.eqb name (Name r)); reflexivity.
Qed.

Lemma fold_opts_keep_maps (opts : list (@Option Payload Request Reply ServerOption)) :
  (forall opt s, In opt opts ->
                 txMap (opt s) = txMap s /\ readMap (opt s) = readMap s) ->
  forall s,
    txMap (fold_left (fun s opt => opt s) opts s) = txMap s
    /\ readMap (fold_left (fun s opt => opt s) opts s) = readMap s.
Proof.
  induction opts as [|opt opts IH]; intros Hkeep s; simpl; [auto|].
  destruct (IH (fun o s' H => Hkeep o s' (or_intror H)) (opt s)) as [H1 H2].
  destruct (Hkeep opt s (or_introl eq_refl)) as [H3 H4].
  rewrite H1, H2. auto.
Qed.

(** X10: [NewServer], with options that leave the two maps alone: when the
    world lists its transactions, the server's map answers an ID with
    the last listed transaction of that ID (none if there is none), so
    every entry sits under its own ID, and with pairwise distinct IDs
    every listed transaction is found under its ID; reads are found by
    name in the same way.  When the world fails to list its
    transactions, no server is built and that error is returned. *)
Theorem NewServer_maps (w : @World Payload)
        (opts : list (@Option Payload Request Reply ServerOption)) :
  (forall opt s, In opt opts ->
                 txMap (opt s) = txMap s /\ readMap (opt s) = readMap s) ->
  (forall e, ListTransactions w = inr e ->
             NewServer ListTransactions ListReads w opts = inr e)
  /\ (forall txs,
         ListTransactions w = inl txs ->
         exists s,
           NewServer ListTransactions ListReads w opts = inl s
           /\ (forall id, txMap s id = find (fun tx => N.eqb id (ID tx)) (rev txs))
           /\ keyedByID (txMap s)
           /\ (NoDup (map ID txs) ->
               forall tx, In tx txs -> txMap s (ID tx) = Some tx)
           /\ (forall name,
                  readMap s name
                  = find (fun r => String.eqb name (Name r)) (rev (ListReads w)))).
Proof.
  intros Hkeep. unfold NewServer. split.
  - intros e He. now rewrite He.
  - intros txs Htxs. rewrite Htxs. eexists. split; [reflexivity|].
    destruct (fold_opts_keep_maps opts Hkeep
                {| txMap := fold_left setTx txs (fun _ => None);
                   readMap := fold_left setRead (ListReads w) (fun _ => None);
                   world := w; serverOpts := []; nextNonce := 0 |}) as [Htx Hrd].
    simpl in Htx, Hrd.
    assert (Hfind : forall id,
               txMap (fold_left (fun s opt => opt s) opts
                        {| txMap := fold_left setTx txs (fun _ => None);
                           readMap := fold_left setRead (ListReads w) (fun _ => None);
                           world := w; serverOpts := []; nextNonce := 0 |}) id
               = find (fun tx => N.eqb id (ID tx)) (rev txs)).
    { intros id. rewrite Htx, fold_setTx. now destruct (find _ (rev txs)). }
    split; [exact Hfind|]. split; [|split].
    + intros id itx H. rewrite Hfind in H. apply find_some in H.
      destruct H as [_ H]. apply N.eqb_eq in H. now symmetry.
    + intros Hnd tx Hin. rewrite Hfind.
      destruct (find (fun t => N.eqb (ID tx) (ID t)) (rev txs)) as [t|] eqn:E.
      * apply find_some in E. destruct E as [Ht Heq]. apply N.eqb_eq in Heq.
        f_equal. apply (NoDup_map_In_inj ID txs Hnd); auto.
        now apply in_rev.
      * exfalso. apply in_rev in Hin.
        pose proof (find_none _ _ E tx Hin) as H'. simpl in H'.
        now rewrite N.eqb_refl in H'.
    + intros name. rewrite Hrd, fold_setRead.
      now destruct (find _ (rev (ListReads w))).
Qed.

(** What one message does: nothing but an error, or one transaction
    queued under the next nonce. *)
Lemma SendMessage_cases s msg :
  (exists e, SendMessage s msg = (s, inr e))
  \/ (exists itx tx,
         txMap s (MessageId msg) = Some itx
         /\ DecodeEVMBytes itx (Message msg) = inl tx
         /\ SendMessage s msg
            = ({| txMap := txMap s; readMap := readMap s;
                  world :=
                    {| active :=
                         active (world s)
                           ++ [ {| typeID := ID itx; payload := tx;
                                   signature :=
                                     {| submitterTag :=
                                          "internal-persona-tag-for-evm-server";
                                        nonce := add1 (nextNonce s) |} |} ];
                       processing := processing (world s) |};
                  serverOpts := serverOpts s;
                  nextNonce := add1 (nextNonce s) |}, inl tt)).
Proof.
  unfold SendMessage.
  destruct (txMap s (MessageId msg)) as [itx|] eqn:Hitx; [|left; eauto].
  destruct (DecodeEVMBytes itx (Message msg)) as [tx | e] eqn:Hdec; [|left; eauto].
  right. exists itx, tx. split; [reflexivity|]. split; [exact Hdec|]. reflexivity.
Qed.

(** X11: A message that is answered with an error has no effect: the queue,
    the nonce counter and the maps are as before.  An ID that is not in
    the map is answered with the error that names it. *)
Theorem SendMessage_failure_changes_nothing s msg :
  (forall e, snd (SendMessage s msg) = inr e -> fst (SendMessage s msg) = s)
  /\ (txMap s (MessageId msg) = None ->
      SendMessage s msg
      = (s, inr (Errorf ("no transaction with ID " ++ decimal (MessageId msg)
                         ++ " is registerd in this world")))).
Proof.
  split.
  - intros e He.
    destruct (SendMessage_cases s msg) as [[e' H] | (itx & tx & _ & _ & H)];
      rewrite H in He |- *; [reflexivity | discriminate].
  - intros Hnone. unfold SendMessage. now rewrite Hnone.
Qed.

(** X12: On a server whose map holds every transaction under its own ID, a
    message that is accepted queues exactly one transaction: its type is
    the message's ID, its payload what the transaction of that ID
    decoded from the message, its signature the server's persona tag
    with the counter's next value as nonce; the processing buffer is not
    touched and the counter moves to that value. *)
Theorem SendMessage_queues_one s msg :
  keyedByID (txMap s) ->
  snd (SendMessage s msg) = inl tt ->
  exists itx tx,
    txMap s (MessageId msg) = Some itx
    /\ DecodeEVMBytes itx (Message msg) = inl tx
    /\ active (world (fst (SendMessage s msg)))
       = active (world s)
           ++ [ {| typeID := MessageId msg; payload := tx;
                   signature :=
                     {| submitterTag := "internal-persona-tag-for-evm-server";
                        nonce := add1 (nextNonce s) |} |} ]
    /\ processing (world (fst (SendMessage s msg))) = processing (world s)
    /\ nextNonce (fst (SendMessage s msg)) = add1 (nextNonce s).
Proof.
  intros Hkeyed Hok.
  destruct (SendMessage_cases s msg) as [[e H] | (itx & tx & Hitx & Hdec & H)];
    rewrite H in Hok |- *; [discriminate|].
  exists itx, tx. simpl. rewrite (Hkeyed _ _ Hitx). auto.
Qed.

(** Handling a message leaves the transaction map as it was, so whether a
    later message is accepted does not depend on the messages before. *)
Lemma accepts_txMap s1 s2 msg :
  txMap s1 = txMap s2 -> accepts s1 msg = accepts s2 msg.
Proof.
  intros H. unfold accepts, SendMessage. rewrite H.
  destruct (txMap s2 (MessageId msg)) as [itx|]; [|reflexivity].
  destruct (DecodeEVMBytes itx (Message msg)); reflexivity.
Qed.

(** X13: The nonces handed out are consecutive: over any sequence of
    messages whose accepted ones do not take the counter to 2^64, the
    transactions queued are appended in order, one per accepted message,
    all carry the server's persona tag, and their nonces are the values
    following the counter, one by one, hence pairwise distinct; rejected
    messages use up no nonce. *)
Theorem sendAll_nonces_consecutive (msgs : list SendMessageRequest) :
  forall s,
    (nextNonce s + N.of_nat (List.length (accepted s msgs)) < uint64Modulus)%N ->
    exists added,
      active (world (sendAll s msgs)) = active (world s) ++ added
      /\ processing (world (sendAll s msgs)) = processing (world s)
      /\ List.length added = List.length (accepted s msgs)
      /\ List.length added <= List.length msgs
      /\ nonces added
         = map (fun i => (nextNonce s + N.of_nat i)%N) (seq 1 (List.length added))
      /\ Forall (fun tx => submitterTag (signature tx)
                           = "internal-persona-tag-for-evm-server") added
      /\ nextNonce (sendAll s msgs)
         = (nextNonce s + N.of_nat (List.length added))%N
      /\ NoDup (nonces added).
Proof.
  assert (Hmain : forall s,
    (nextNonce s + N.of_nat (List.length (accepted s msgs)) < uint64Modulus)%N ->
    exists added,
      active (world (sendAll s msgs)) = active (world s) ++ added
      /\ processing (world (sendAll s msgs)) = processing (world s)
      /\ List.length added = List.length (accepted s msgs)
      /\ nonces added
         = map (fun i => (nextNonce s + N.of_nat i)%N) (seq 1 (List.length added))
      /\ Forall (fun tx => submitterTag (signature tx)
                           = "internal-persona-tag-for-evm-server") added
      /\ nextNonce (sendAll s msgs)
         = (nextNonce s + N.of_nat (List.length added))%N).
  { unfold sendAll, accepted.
    induction msgs as [|msg msgs IH]; intros s Hbound.
    - exists []. simpl. rewrite app_nil_r, N.add_0_r. repeat split; auto.
    - simpl fold_left. cbn [filter] in Hbound |- *.
      destruct (SendMessage_cases s msg) as [[e H] | (itx & tx & _ & _ & H)].
      + assert (Hacc : accepts s msg = false)
          by (unfold accepts; now rewrite H).
        rewrite Hacc in Hbound |- *. rewrite H; cbn [fst].
        destruct (IH s Hbound) as (added & H1 & H2 & H3 & H4 & H5 & H6).
        exists added. repeat split; auto.
      + assert (Hacc : accepts s msg = true)
          by (unfold accepts; now rewrite H).
        rewrite Hacc in Hbound |- *. cbn [List.length] in Hbound |- *.
        rewrite H; cbn [fst].
        assert (Hadd : add1 (nextNonce s) = (nextNonce s + 1)%N).
        { unfold add1. apply N.mod_small. lia. }
        match goal with
        | |- context [fold_left _ msgs ?s1] =>
            assert (Hsame : filter (accepts s1) msgs = filter (accepts s) msgs)
              by (apply filter_ext; intros m0; now apply accepts_txMap);
            assert (Hb1 : (nextNonce s1
                           + N.of_nat (List.length (filter (accepts s1) msgs))
                           < uint64Modulus)%N)
              by (rewrite Hsame; cbn [nextNonce]; rewrite Hadd; lia);
            destruct (IH s1 Hb1) as (added & H1 & H2 & H3 & H4 & H5 & H6)
        end.
        rewrite Hsame in H3.
        cbn [nextNonce world active processing] in H1, H2, H4, H6.
        eexists (_ :: added). rewrite H1, H2, H6, <- app_assoc.
        split; [reflexivity|]. split; [reflexivity|].
        split; [simpl; now rewrite H3|]. split; [|split].
        * unfold nonces in *. cbn [map signature nonce List.length seq].
          rewrite H4, Hadd. change (N.of_nat 1) with 1%N. apply f_equal.
          rewrite <- (seq_shift (List.length added) 1), map_map.
          apply map_ext. intros i.
          rewrite Nnat.Nat2N.inj_succ. lia.
        * constructor; [reflexivity | exact H5].
        * rewrite Hadd. cbn [List.length]. lia. }
  intros s Hbound.
  destruct (Hmain s Hbound) as (added & H1 & H2 & H3 & H4 & H5 & H6).
  exists added. repeat split; auto.
  - rewrite H3. unfold accepted. apply filter_length_le.
  - rewrite H4. apply NoDup_map_injective; [|apply seq_NoDup].
    intros i j _ _ Hij. lia.
Qed.

(** X14: A query changes neither the maps, nor the gRPC options, nor the
    nonce counter; one that names no registered read, or whose request
    the read cannot decode, is answered with an error before the handler
    is reached, so the world is untouched as well. *)
Theorem QueryShard_short_circuits s req :
  (txMap (fst (QueryShard s req)) = txMap s
   /\ readMap (fst (QueryShard s req)) = readMap s
   /\ serverOpts (fst (QueryShard s req)) = serverOpts s
   /\ nextNonce (fst (QueryShard s req)) = nextNonce s)
  /\ (readMap s (Resource req) = None ->
      QueryShard s req
      = (s, inr (Errorf ("no read with name " ++ Resource req ++ " found"))))
  /\ (forall read e,
         readMap s (Resource req) = Some read ->
         DecodeEVMRequest read (Request_ req) = inr e ->
         QueryShard s req = (s, inr e)).
Proof.
  unfold QueryShard. split; [|split].
  - destruct (readMap s (Resource req)) as [read|]; [|auto].
    destruct (DecodeEVMRequest read (Request_ req)) as [q|e]; [|auto].
    destruct (HandleRead read (world s) q) as [w [reply|e]]; [|simpl; auto].
    destruct (EncodeEVMReply read reply); simpl; auto.
  - intros H. now rewrite H.
  - intros read e H1 H2. now rewrite H1, H2.
Qed.

End EVMFacts.

Lemma keyedByID_fold_setTx {Payload : Type} (txs : list (@EVM.ITransaction Payload)) :
  forall it, EVM.keyedByID it -> EVM.keyedByID (fold_left EVM.setTx txs it).
Proof.
  induction txs as [|tx txs IH]; intros it Hit; simpl; [exact Hit|].
  apply IH. intros id itx. unfold EVM.setTx.
  destruct (N.eqb id (EVM.ID tx)) eqn:E.
  - intros H. inversion H; subst. apply N.eqb_eq in E. now symmetry.
  - apply Hit.
Qed.

Lemma keyedByID_demo_server : EVM.keyedByID (EVM.txMap DemoEVM.server).
Proof.
  change (EVM.txMap DemoEVM.server)
    with (fold_left EVM.setTx [DemoEVM.raw; DemoEVM.strict]
                    (fun _ : N => @None (@EVM.ITransaction (list Byte.byte)))).
  apply keyedByID_fold_setTx. intros id itx H. discriminate H.
Qed.

(** *** The server at work *)

Lemma NewServer_maps_witness :
  exists s,
    EVM.NewServer DemoEVM.listTransactions DemoEVM.listReads
                  TransactionQueue.NewQueue [DemoEVM.withOption 7] = inl s
    /\ EVM.txMap s 2%N = Some DemoEVM.strict
    /\ EVM.txMap s 3%N = None.
Proof.
  assert (Hkeep : forall opt (s : @EVM.msgServerImpl (list Byte.byte) unit nat nat),
             In opt [DemoEVM.withOption 7] ->
             EVM.txMap (opt s) = EVM.txMap s
             /\ EVM.readMap (opt s) = EVM.readMap s).
  { intros opt s [<- | []]. split; reflexivity. }
  destruct (proj2 (NewServer_maps DemoEVM.listTransactions DemoEVM.listReads
                     TransactionQueue.NewQueue [DemoEVM.withOption 7] Hkeep)
                  [DemoEVM.raw; DemoEVM.strict] eq_refl)
    as (s & Hs & Hfind & _ & Hdistinct & _).
  exists s. split; [exact Hs|]. split.
  - apply (Hdistinct ltac:(repeat constructor; simpl; intuition discriminate)
                     DemoEVM.strict).
    right. left. reflexivity.
  - rewrite Hfind. reflexivity.
Defined.

Lemma SendMessage_failure_changes_nothing_witness :
  EVM.SendMessage DemoEVM.server
    {| EVM.MessageId := 9; EVM.Message := [Byte.x01] |}
  = (DemoEVM.server,
     inr (Errorf "no transaction with ID 9 is registerd in this world"))
  /\ fst (EVM.SendMessage DemoEVM.server
            {| EVM.MessageId := 2; EVM.Message := [] |})
     = DemoEVM.server.
Proof.
  split.
  - apply (proj2 (SendMessage_failure_changes_nothing DemoEVM.server
                    {| EVM.MessageId := 9; EVM.Message := [Byte.x01] |})).
    reflexivity.
  - apply (proj1 (SendMessage_failure_changes_nothing DemoEVM.server
                    {| EVM.MessageId := 2; EVM.Message := [] |})
                 (Errorf "empty message")).
    reflexivity.
Defined.

Lemma SendMessage_queues_one_witness :
  exists itx tx,
    EVM.txMap DemoEVM.server 1%N = Some itx
    /\ EVM.DecodeEVMBytes itx [Byte.x01] = inl tx
    /\ TransactionQueue.active
         (EVM.world (fst (EVM.SendMessage DemoEVM.server
                            {| EVM.MessageId := 1; EVM.Message := [Byte.x01] |})))
       = TransactionQueue.active (EVM.world DemoEVM.server)
           ++ [ {| TransactionQueue.typeID := 1%N;
                   TransactionQueue.payload := tx;
                   TransactionQueue.signature :=
                     {| TransactionQueue.submitterTag :=
                          "internal-persona-tag-for-evm-server";
                        TransactionQueue.nonce := EVM.add1 0 |} |} ]
    /\ TransactionQueue.processing
         (EVM.world (fst (EVM.SendMessage DemoEVM.server
                            {| EVM.MessageId := 1; EVM.Message := [Byte.x01] |})))
       = TransactionQueue.processing (EVM.world DemoEVM.server)
    /\ EVM.nextNonce (fst (EVM.SendMessage DemoEVM.server
                             {| EVM.MessageId := 1; EVM.Message := [Byte.x01] |}))
       = EVM.add1 0.
Proof.
  exact (SendMessage_queues_one DemoEVM.server
           {| EVM.MessageId := 1; EVM.Message := [Byte.x01] |}
           keyedByID_demo_server eq_refl).
Defined.

Lemma sendAll_nonces_consecutive_witness :
  exists added,
    TransactionQueue.active
      (EVM.world (EVM.sendAll DemoEVM.nearWrap
                    [ {| EVM.MessageId := 1; EVM.Message := [Byte.x01] |};
                      {| EVM.MessageId := 9; EVM.Message := [] |};
                      {| EVM.MessageId := 2; EVM.Message := [] |} ]))
    = TransactionQueue.active (EVM.world DemoEVM.nearWrap) ++ added
    /\ List.length added = 1
    /\ EVM.nonces added
       = map (fun i => (EVM.nextNonce DemoEVM.nearWrap + N.of_nat i)%N)
             (seq 1 (List.length added))
    /\ EVM.nextNonce
         (EVM.sendAll DemoEVM.nearWrap
            [ {| EVM.MessageId := 1; EVM.Message := [Byte.x01] |};
              {| EVM.MessageId := 9; EVM.Message := [] |};
              {| EVM.MessageId := 2; EVM.Message := [] |} ])
       = (EVM.nextNonce DemoEVM.nearWrap + N.of_nat (List.length added))%N
    /\ NoDup (EVM.nonces added).
Proof.
  destruct (sendAll_nonces_consecutive
              [ {| EVM.MessageId := 1; EVM.Message := [Byte.x01] |};
                {| EVM.MessageId := 9; EVM.Message := [] |};
                {| EVM.MessageId := 2; EVM.Message := [] |} ]
              DemoEVM.nearWrap eq_refl)
    as (added & H1 & _ & H3 & _ & H5 & _ & H7 & H8).
  exists added. split; [exact H1|]. split; [exact H3|].
  split; [exact H5|]. split; [exact H7 | exact H8].
Defined.

Lemma QueryShard_short_circuits_witness :
  EVM.QueryShard DemoEVM.server
    {| EVM.Resource := "missing"; EVM.Request_ := [] |}
  = (DemoEVM.server, inr (Errorf "no read with name missing found"))
  /\ EVM.QueryShard DemoEVM.server
       {| EVM.Resource := "pending"; EVM.Request_ := [Byte.x01] |}
     = (DemoEVM.server, inr (Errorf "unexpected request")).
Proof.
  split.
  - apply (proj1 (proj2 (QueryShard_short_circuits DemoEVM.server
                           {| EVM.Resource := "missing"; EVM.Request_ := [] |}))).
    reflexivity.
  - apply (proj2 (proj2 (QueryShard_short_circuits DemoEVM.server
                           {| EVM.Resource := "pending";
                              EVM.Request_ := [Byte.x01] |}))
                 DemoEVM.pending); reflexivity.
Defined.

(** The counter wraps: after 2^64 - 1 comes 0. *)
Example add1_wraps : EVM.add1 (EVM.uint64Modulus - 1) = 0%N.
Proof. reflexivity. Qed.

Example sendAll_demo :
  EVM.nonces
    (TransactionQueue.active
       (EVM.world (EVM.sendAll DemoEVM.server
                     [ {| EVM.MessageId := 1; EVM.Message := [Byte.x01] |};
                       {| EVM.MessageId := 9; EVM.Message := [] |};
                       {| EVM.MessageId := 2; EVM.Message := [Byte.x02] |} ])))
  = [1%N; 2%N].
Proof. reflexivity. Qed.

Section RegistrationOrder.

Context {World : Type}.
Implicit Types (m : @systemManager World).

(** X9: Registration only ever appends: whatever a call returns, the systems
    registered before keep their places at the front of their list, at
    most one of the two lists grows, and the record of the running
    system is not touched. *)
Theorem registerSystems_only_appends m (isInit : bool) (systemFuncs : list System) :
  exists added,
    registeredInitSystems (fst (registerSystems m isInit systemFuncs))
    = registeredInitSystems m ++ (if isInit then added else [])
    /\ registeredSystems (fst (registerSystems m isInit systemFuncs))
       = registeredSystems m ++ (if isInit then [] else added)
    /\ currentSystem (fst (registerSystems m isInit systemFuncs))
       = currentSystem m
    /\ (added = [] \/ added = map entryOf systemFuncs).
Proof.
  destruct (registerSystems_cases m isInit systemFuncs)
    as [[e He] | (_ & _ & m1 & Hm1 & Hcur & Hinit & Hreg)].
  - exists []. rewrite He. simpl. destruct isInit; rewrite !app_nil_r; auto.
  - exists (map entryOf systemFuncs). rewrite Hm1. simpl. auto.
Qed.

End RegistrationOrder.
